(** * Lamose lead scraper: a shallow embedding of [lamose_leads/scraper.py]

    The development follows the source file top to bottom: Python strings and
    the string methods the scraper calls, the email pattern [EMAIL_RE] and
    [findall], [clean_emails] and [extract_emails], then the effectful part
    ([scrape_websites], [scrape_google_search], [scrape_from_file],
    [save_csv], [main]) in a state-and-exception monad over an abstract
    outside world, and finally the properties. *)

From Stdlib Require Import ZArith List Bool Lia String Ascii DecimalString.
From stdpp Require Import base decidable countable gmap list.

Import ListNotations.
Local Open Scope Z_scope.

(** ** Python strings

    A Python [str] is a sequence of Unicode code points. *)

Module Str.

Abbreviation str := (list N).

(** A literal of the source, written as a Rocq string of ASCII characters. *)
Fixpoint lit (s : string) : str :=
  match s with
  | EmptyString => []
  | String c s' => N_of_ascii c :: lit s'
  end.

Definition eqb (a b : str) : bool := bool_decide (a = b).

(** Code points for which [str.isspace] holds; [strip] removes them. *)
Definition isspace (c : N) : bool :=
  ((9 <=? c) && (c <=? 13) || (28 <=? c) && (c <=? 32)
   || (c =? 133) || (c =? 160) || (c =? 5760)
   || (8192 <=? c) && (c <=? 8202) || (c =? 8232) || (c =? 8233)
   || (c =? 8239) || (c =? 8287) || (c =? 12288))%N.

(** [s.lstrip(chars)] and [s.rstrip(chars)] for a predicate on characters. *)
Fixpoint lstrip_by (p : N -> bool) (s : str) : str :=
  match s with
  | [] => []
  | c :: s' => if p c then lstrip_by p s' else s
  end.

Fixpoint rstrip_by (p : N -> bool) (s : str) : str :=
  match s with
  | [] => []
  | c :: s' =>
      match rstrip_by p s' with
      | [] => if p c then [] else [c]
      | r => c :: r
      end
  end.

(** [s.strip()] *)
Definition strip (s : str) : str := rstrip_by isspace (lstrip_by isspace s).

(** [s.rstrip("/")] *)
Definition rstrip_slash (s : str) : str := rstrip_by (N.eqb 47) s.

(** [s.startswith(p)] *)
Fixpoint startswith (p s : str) : bool :=
  match p, s with
  | [], _ => true
  | _ :: _, [] => false
  | a :: p', b :: s' => (a =? b)%N && startswith p' s'
  end.

(** [s.endswith(p)] *)
Definition endswith (p s : str) : bool := startswith (rev p) (rev s).

(** [p in s] *)
Fixpoint contains (p s : str) : bool :=
  startswith p s || match s with [] => false | _ :: s' => contains p s' end.

(** [s.replace(a, b)] for single characters [a] and [b]. *)
Definition replace_char (a b : N) (s : str) : str :=
  map (fun c => if (c =? a)%N then b else c) s.

(** [s.split(sep)[-1]] for a single character [sep]: what follows the last
    occurrence of [sep], or all of [s] when there is none. *)
Fixpoint after_last (sep : N) (s : str) : str :=
  match s with
  | [] => []
  | c :: s' =>
      if contains [sep] s' then after_last sep s'
      else if (c =? sep)%N then s' else s
  end.

(** [sep.join(parts)] *)
Fixpoint join (sep : str) (parts : list str) : str :=
  match parts with
  | [] => []
  | [p] => p
  | p :: rest => p ++ sep ++ join sep rest
  end.

(** [str(n)] for an integer. *)
Definition of_Z (n : Z) : str := lit (NilZero.string_of_int (Z.to_int n)).

(** The full lower-case mapping of a code point, as [str.lower] applies it.
    The scraper lower-cases matches of [EMAIL_RE] only; the table is that of
    the code points such a match can hold (the ASCII letters, and the three
    non-ASCII code points whose case changes), every other code point being
    left in place. *)
Definition lower_char (c : N) : str :=
  (if (65 <=? c) && (c <=? 90) then [c + 32]
   else if c =? 304 then [105; 775]     (* U+0130 gives i, U+0307 *)
   else if c =? 8490 then [107]          (* U+212A, the Kelvin sign, gives k *)
   else [c])%N.

(** [s.lower()] *)
Definition lower (s : str) : str := concat (map lower_char s).

End Str.

Import Str.

(** ** Regular expressions: the fragment [EMAIL_RE] is written in

    A pattern is a sequence of atoms; an atom is a literal character or a
    character set repeated greedily at least [lo] times ([+] is [{1,}]).
    Matching is that of [re] under [re.IGNORECASE], the flag [EMAIL_RE] is
    compiled with. *)

Module Re.

Inductive citem : Type :=
| CRange (lo hi : N)      (* [lo-hi] *)
| CChar (c : N).          (* a single member *)

Definition charset := list citem.

Inductive atom : Type :=
| Lit (c : N)
| Rep (cs : charset) (lo : nat).

Definition pattern := list atom.

(** The simple lower-case mapping the matcher applies to the subject
    character. Besides the ASCII capitals, U+0130 and U+212A are the only
    code points it sends to an ASCII letter; on every other code point its
    value lies outside the character maps built below, so those are left in
    place. *)
Definition sre_lower (c : N) : N :=
  (if (65 <=? c) && (c <=? 90) then c + 32
   else if c =? 304 then 105
   else if c =? 8490 then 107
   else c)%N.

(** The extra case-equivalent code points the compiler adds for a lower-case
    member of a set: i and U+0131, s and U+017F, k and U+212A. *)
Definition ignorecase_fixes (c : N) : list N :=
  (if c =? 105 then [305] else if c =? 115 then [383]
   else if c =? 107 then [8490] else [])%N.

Definition range (lo hi : N) : list N :=
  map N.of_nat (seq (N.to_nat lo) (N.to_nat hi + 1 - N.to_nat lo)).

Definition fixup (c : N) : list N :=
  let l := sre_lower c in l :: ignorecase_fixes l.

(** The character map of a set compiled under IGNORECASE. *)
Definition charmap (cs : charset) : list N :=
  flat_map (fun it => match it with
                      | CRange lo hi => flat_map fixup (range lo hi)
                      | CChar c => fixup c
                      end) cs.

(** Does the subject character [c] match the set? *)
Definition in_charset (cs : charset) (c : N) : bool :=
  existsb (N.eqb (sre_lower c)) (charmap cs).

(** Length of the longest run of characters satisfying [p] at the head. *)
Fixpoint span (p : N -> bool) (s : str) : nat :=
  match s with
  | c :: s' => if p c then S (span p s') else O
  | [] => O
  end.

(** A greedy repetition: try [k] characters, then [k-1], ..., down to [lo],
    until the rest of the pattern (the continuation [f]) matches. *)
Fixpoint try_down (f : nat -> option nat) (lo k : nat) : option nat :=
  if (k <? lo)%nat then None
  else match f k with
       | Some n => Some (k + n)%nat
       | None => match k with
                 | O => None
                 | S k' => try_down f lo k'
                 end
       end.

(** Match the pattern at the head of [s]; the length of the match. *)
Fixpoint match_here (re : pattern) (s : str) : option nat :=
  match re with
  | [] => Some O
  | Lit c :: re' =>
      match s with
      | x :: s' => if (x =? c)%N then option_map S (match_here re' s') else None
      | [] => None
      end
  | Rep cs lo :: re' =>
      try_down (fun k => match_here re' (skipn k s)) lo (span (in_charset cs) s)
  end.

(** [re.findall(s)]: scan left to right; a match is reported and the scan
    resumes at its end, a failure moves the scan one character on. [skip] is
    the number of characters of the last match still to be passed over. *)
Fixpoint findall_from (re : pattern) (skip : nat) (s : str) : list str :=
  match s with
  | [] => []
  | _ :: s' =>
      match skip with
      | S k => findall_from re k s'
      | O =>
          match match_here re s with
          | Some n => firstn n s :: findall_from re (n - 1) s'
          | None => findall_from re O s'
          end
      end
  end.

Definition findall (re : pattern) (s : str) : list str := findall_from re O s.

End Re.

Import Re.

(** ** The email extractor *)

(** [[a-zA-Z0-9._%+\-]+@[a-zA-Z0-9.\-]+\.[a-zA-Z]{2,}] *)
Definition EMAIL_RE : pattern :=
  [ Rep [CRange 97 122; CRange 65 90; CRange 48 57;
         CChar 46; CChar 95; CChar 37; CChar 43; CChar 45] 1;
    Lit 64;
    Rep [CRange 97 122; CRange 65 90; CRange 48 57; CChar 46; CChar 45] 1;
    Lit 46;
    Rep [CRange 97 122; CRange 65 90] 2 ].

Definition SKIP_DOMAINS : gset str :=
  list_to_set (map lit
    [ "example.com"; "sentry.io"; "wix.com"; "squarespace.com";
      "wordpress.com"; "shopify.com"; "gmail.com"; "yahoo.com";
      "hotmail.com"; "placeholder.com"; "yourdomain.com" ]%string).

(** The loop of [clean_emails], with its two accumulators. *)
Fixpoint clean_loop (raw : list str) (seen : gset str) (out : list str)
  : list str :=
  match raw with
  | [] => out
  | e :: rest =>
      let e := strip (lower e) in
      let domain := after_last 64 e in
      if bool_decide (domain ∈ SKIP_DOMAINS) then clean_loop rest seen out
      else if bool_decide (e ∉ seen)
           then clean_loop rest ({[ e ]} ∪ seen) (out ++ [e])
           else clean_loop rest seen out
  end.

Definition clean_emails (raw : list str) : list str := clean_loop raw ∅ [].

Definition extract_emails (text : str) : list str :=
  clean_emails (findall EMAIL_RE text).

(** ** The outside world

    The fetchers of [scrapling], the clock and the file system are
    collaborators the scraper only calls. They are an interface over an
    abstract world [W]: each call takes the world and returns an answer and
    the next world, so the same URL may be answered differently at different
    moments of a run. *)

(** The exceptions of a run, by their messages. All of them are instances
    of [Exception], the class the two [except] clauses of the scraper catch:
    what a fetch raises when it fails, and the [UnicodeEncodeError] or
    [OSError] of a [print] or of a file access. *)
Abbreviation exn := (list N).

(** What the scraper reads of a fetched page: [page.html_content], and for
    each element of [page.css("a[href]")] the value of
    [link.attrib.get("href")]. A page object is truthy. *)
Record page : Type := { html_content : str; anchors : list (option str) }.

(** [fetcher.get] returns a page or [None], or raises. *)
Inductive response : Type :=
| Raise (e : exn)
| Return (p : option page).

(** The dictionaries [scrape_websites] builds. *)
Record lead : Type :=
  { source : str; emails : str; email_count : Z; scraped_at : str }.

Inductive fetcher_kind : Type := Plain | Stealthy.

Inductive source_mode : Type := website | google | file.

(** The lines [print] writes, one constructor for each call in the source. *)
Inductive line : Type :=
| Fetching (url : str)
| SkipNoResponse
| TryingContact (contact_url : str)
| Found (n : Z) (emails : list str)
| Error (e : exn)
| SearchPage (n : Z) (search_url : str)
| SearchError (e : exn)
| Collected (n : Z)
| Loaded (n : Z) (filepath : str)
| NoResults
| Saved (n total : Z) (output_path : str)
| Banner
| SourceLine (src : source_mode) (output : str)
| ErrorRequired (flag : str) (src : source_mode).



Class Outside (W : Type) : Type :=
  { Fetcher_get : W -> str -> Z -> response * W;
    StealthyFetcher_get : W -> str -> Z -> response * W;
    (* datetime.now().isoformat() *)
    datetime_now : W -> str * W;
    (* Path(filepath).read_text(): the text, or the error raised *)
    read_text : W -> str -> (str + exn) * W;
    (* open(path, "w") and the DictWriter calls: the error raised, if any *)
    write_csv : W -> str -> list str -> list lead -> option exn * W;
    (* print(line), that is sys.stdout.write: the error raised, if any, as
       when the stream cannot encode the line *)
    stdout_write : W -> line -> option exn * W }.

(** What a run does to the outside, in order. *)
Inductive event : Type :=
| Print (l : line)
| Get (k : fetcher_kind) (url : str) (timeout : Z) (r : response)
| ReadText (filepath : str)
| WriteCsv (output_path : str) (fieldnames : list str) (rows : list lead).

(** ** The monad of the scraper: a world, a trace, and exceptions *)

Inductive result (A : Type) : Type :=
| Ok (a : A)
| Exc (e : exn).
Arguments Ok {A} a.
Arguments Exc {A} e.

Section Scraper.

Context {W : Type} `{Outside W}.

Record state : Type := { world : W; trace : list event }.

Definition M (A : Type) : Type := state -> result A * state.

Definition ret {A} (a : A) : M A := fun s => (Ok a, s).

Definition bind {A B} (m : M A) (k : A -> M B) : M B :=
  fun s => match m s with
           | (Ok a, s') => k a s'
           | (Exc e, s') => (Exc e, s')
           end.

(** [try: body except Exception as e: handler] *)
Definition try_except {A} (body : M A) (handler : exn -> M A) : M A :=
  fun s => match body s with
           | (Ok a, s') => (Ok a, s')
           | (Exc e, s') => handler e s'
           end.

(** [print(l)]: the line is in the trace when the stream took it; a line
    the stream refuses is not written, and the error is raised. *)
Definition print (l : line) : M unit :=
  fun s =>
    let '(r, w) := stdout_write (world s) l in
    match r with
    | None => (Ok tt, {| world := w; trace := trace s ++ [Print l] |})
    | Some e => (Exc e, {| world := w; trace := trace s |})
    end.

End Scraper.

Declare Scope py_scope.
Delimit Scope py_scope with py.
Notation "x <- c1 ;; c2" := (bind c1 (fun x => c2))
  (at level 100, c1 at next level, right associativity) : py_scope.
Notation "c1 ;; c2" := (bind c1 (fun _ => c2))
  (at level 100, right associativity) : py_scope.
Local Open Scope py_scope.

(** ** The scraper *)

Section Code.

Context {W : Type} `{Outside W}.

(** The calls into the outside; each leaves its event in the trace. *)
Definition get (k : fetcher_kind) (url : str) (timeout : Z)
  : M (option page) :=
  fun s =>
    let '(r, w) := match k with
                   | Plain => Fetcher_get (world s) url timeout
                   | Stealthy => StealthyFetcher_get (world s) url timeout
                   end in
    let s' := {| world := w; trace := trace s ++ [Get k url timeout r] |} in
    match r with
    | Raise e => (Exc e, s')
    | Return p => (Ok p, s')
    end.

Definition now_isoformat : M str :=
  fun s => let '(t, w) := datetime_now (world s) in
           (Ok t, {| world := w; trace := trace s |}).

Definition path_read_text (filepath : str) : M str :=
  fun s =>
    let '(r, w) := read_text (world s) filepath in
    let s' := {| world := w; trace := trace s ++ [ReadText filepath] |} in
    match r with
    | inl text => (Ok text, s')
    | inr e => (Exc e, s')
    end.

Definition dict_writer (output_path : str) (fieldnames : list str)
    (rows : list lead) : M unit :=
  fun s =>
    let '(r, w) := write_csv (world s) output_path fieldnames rows in
    let s' := {| world := w;
                 trace := trace s ++ [WriteCsv output_path fieldnames rows] |} in
    match r with
    | None => (Ok tt, s')
    | Some e => (Exc e, s')
    end.

(** [len(l)] *)
Definition len {A} (l : list A) : Z := Z.of_nat (length l).

(** The truth value of a list or a string: empty is false. *)
Definition truthy {A} (l : list A) : bool :=
  match l with [] => false | _ :: _ => true end.

(** The dictionary appended to [results]. *)
Definition make_lead (url : str) (found : list str) (now : str) : lead :=
  {| source := url;
     emails := if truthy found then join (lit ", ") found else lit "";
     email_count := len found;
     scraped_at := now |}.

(** Lines 70-79: the [/contact] page, tried when the homepage gave nothing. *)
Definition try_contact (url : str) (found : list str) : M (list str) :=
  if negb (truthy found)
     && negb (endswith (lit "/contact") (rstrip_slash url))
  then
    let contact_url := rstrip_slash url ++ lit "/contact" in
    print (TryingContact contact_url) ;;
    try_except
      (contact_page <- get Plain contact_url 10 ;;
       match contact_page with
       | Some contact_page => ret (extract_emails (html_content contact_page))
       | None => ret found
       end)
      (fun _ => ret found)
  else ret found.

(** Lines 63-86, the [try] block up to the call of [results.append]: the
    addresses found and the record to append, or [None] when the block ends
    by [continue]. *)
Definition fetch_lead (url : str) : M (option (list str * lead)) :=
  page <- get Plain url 15 ;;
  match page with
  | None => print SkipNoResponse ;; ret None                    (* continue *)
  | Some page =>
      let found := extract_emails (html_content page) in
      found <- try_contact url found ;;
      now <- now_isoformat ;;
      ret (Some (found, make_lead url found now))
  end.

(** Lines 89-96, the [except] clause; [results] is the list as the [try]
    block left it. An exception of the clause itself leaves the function. *)
Definition on_error (url : str) (results : list lead) (e : exn)
  : M (list lead) :=
  print (Error e) ;;
  now <- now_isoformat ;;
  ret (results ++ [make_lead url [] now]).

(** The body of the [for url in urls] loop; [results] is the list built so
    far, and the value is the list the next iteration starts from. The list
    is one object that [append] changes in place: an exception raised after
    line 81 reaches the [except] clause with the new record already in the
    list. The [try] block is therefore followed in two parts, before and
    after [results.append], each with the [except] clause as its handler. *)
Definition scrape_websites_body (url : str) (results : list lead)
  : M (list lead) :=
  let url := strip url in
  if negb (truthy url) then ret results                        (* continue *)
  else
    print (Fetching url) ;;
    r <- try_except
           (r <- fetch_lead url ;; ret (inl r))
           (fun e => results <- on_error url results e ;; ret (inr results)) ;;
    match r with
    | inr results => ret results
    | inl None => ret results
    | inl (Some (found, record)) =>
        let results := results ++ [record] in
        try_except
          (print (Found (len found) found) ;; ret results)
          (on_error url results)
    end.

Fixpoint scrape_websites_loop (urls : list str) (results : list lead)
  : M (list lead) :=
  match urls with
  | [] => ret results
  | url :: rest =>
      results <- scrape_websites_body url results ;;
      scrape_websites_loop rest results
  end.

Definition scrape_websites (urls : list str) : M (list lead) :=
  scrape_websites_loop urls [].

(** The inner loop of [scrape_google_search] over the links of one page. *)
Fixpoint collect_links (links : list (option str)) (limit : Z)
    (collected_urls : list str) : list str :=
  match links with
  | [] => collected_urls
  | link :: rest =>
      let href := match link with Some h => h | None => lit "" end in
      let collected_urls :=
        if startswith (lit "http") href && negb (contains (lit "google.com") href)
        then collected_urls ++ [href] else collected_urls in
      if len collected_urls >=? limit then collected_urls       (* break *)
      else collect_links rest limit collected_urls
  end.

Definition search_url (query : str) (start : Z) : str :=
  lit "https://www.google.com/search?q=" ++ replace_char 32 43 query
      ++ lit "&start=" ++ of_Z start.

(** How an iteration of the outer loop ends. *)
Inductive flow : Type := Next | Break.

(** The outer loop, over the page numbers left. *)
Fixpoint search_loop (query : str) (limit : Z) (page_nums : list Z)
    (collected_urls : list str) : M (list str) :=
  match page_nums with
  | [] => ret collected_urls
  | page_num :: rest =>
      let start := page_num * 10 in
      let url := search_url query start in
      print (SearchPage (page_num + 1) url) ;;
      r <- try_except
             (page <- get Stealthy url 20 ;;
              match page with
              | None => ret (Break, collected_urls)
              | Some page =>
                  ret (Next, collect_links (anchors page) limit collected_urls)
              end)
             (fun e => print (SearchError e) ;; ret (Break, collected_urls)) ;;
      match r with
      | (Break, collected_urls) => ret collected_urls
      | (Next, collected_urls) => search_loop query limit rest collected_urls
      end
  end.

(** [range(n)] *)
Definition py_range (n : Z) : list Z := map Z.of_nat (seq 0 (Z.to_nat n)).

(** [l[:n]] *)
Definition slice_to {A} (l : list A) (n : Z) : list A :=
  if 0 <=? n then firstn (Z.to_nat n) l
  else firstn (Z.to_nat (len l + n)) l.

Definition pages_needed (limit : Z) : Z := limit / 10 + 1.

(** Lines 107-135: the links collected from the search pages. *)
Definition collect_search (query : str) (limit : Z) : M (list str) :=
  search_loop query limit (py_range (pages_needed limit)) [].

Definition scrape_google_search (query : str) (limit : Z) : M (list lead) :=
  collected_urls <- collect_search query limit ;;
  print (Collected (len collected_urls)) ;;
  scrape_websites (slice_to collected_urls limit).

(** [s.splitlines()] *)
Definition is_linebreak (c : N) : bool :=
  ((10 <=? c) && (c <=? 13) || (28 <=? c) && (c <=? 30)
   || (c =? 133) || (c =? 8232) || (c =? 8233))%N.

Fixpoint splitlines_from (cur : str) (s : str) : list str :=
  match s with
  | [] => if truthy cur then [cur] else []
  | c :: s' =>
      if is_linebreak c then
        cur :: match s' with
               | c' :: s'' =>
                   if (c =? 13)%N && (c' =? 10)%N then splitlines_from [] s''
                   else splitlines_from [] s'
               | [] => []
               end
      else splitlines_from (cur ++ [c]) s'
  end.

Definition splitlines (s : str) : list str := splitlines_from [] s.

Definition scrape_from_file (filepath : str) : M (list lead) :=
  text <- path_read_text filepath ;;
  let urls := splitlines text in
  print (Loaded (len urls) filepath) ;;
  scrape_websites urls.

Definition fieldnames : list str :=
  [lit "source"; lit "emails"; lit "email_count"; lit "scraped_at"].

Definition save_csv (results : list lead) (output_path : str) : M unit :=
  if negb (truthy results) then print NoResults
  else
    dict_writer output_path fieldnames results ;;
    let total_emails := fold_right Z.add 0 (map email_count results) in
    print (Saved (len results) total_emails output_path).

(** The namespace [parse_args] returns. *)
Record args : Type :=
  { arg_source : source_mode;
    arg_urls : option (list str);
    arg_query : option str;
    arg_limit : Z;
    arg_file : option str;
    arg_output : str }.

(** [not x] for an optional argument: absent or empty. *)
Definition missing {A} (x : option (list A)) : bool :=
  match x with Some l => negb (truthy l) | None => true end.

Definition given {A} (x : option (list A)) : list A :=
  match x with Some l => l | None => [] end.

Definition main (a : args) : M unit :=
  print Banner ;;
  print (SourceLine (arg_source a) (arg_output a)) ;;
  match arg_source a with
  | website =>
      if missing (arg_urls a) then print (ErrorRequired (lit "--urls") website)
      else results <- scrape_websites (given (arg_urls a)) ;;
           save_csv results (arg_output a)
  | google =>
      if missing (arg_query a) then print (ErrorRequired (lit "--query") google)
      else results <- scrape_google_search (given (arg_query a)) (arg_limit a) ;;
           save_csv results (arg_output a)
  | file =>
      if missing (arg_file a) then print (ErrorRequired (lit "--file") file)
      else results <- scrape_from_file (given (arg_file a)) ;;
           save_csv results (arg_output a)
  end.

End Code.
(** * Specification-side definitions *)

(** ** The email extractor *)

(** What [clean_emails] does to one match before looking at it. *)
Definition normalize (e : str) : str := strip (lower e).

Definition denylisted (e : str) : Prop := after_last 64 e ∈ SKIP_DOMAINS.

(** The normalized matches that pass the denylist, in the order of the
    text, repetitions included. *)
Definition survivors (raw : list str) : list str :=
  filter (fun e => ¬ denylisted e) (normalize <$> raw).

(** The specification's deduplication: each address stays where it occurs
    first, and its later occurrences go. *)
Fixpoint first_occurrences (l : list str) : list str :=
  match l with
  | [] => []
  | x :: l' => x :: filter (fun y => y ≠ x) (first_occurrences l')
  end.

(** What it is for a string to match a pattern, read off the pattern. *)
Inductive matches : pattern -> str -> Prop :=
| matches_nil : matches [] []
| matches_lit c re m : matches re m -> matches (Lit c :: re) (c :: m)
| matches_rep cs lo re r m :
    (lo <= length r)%nat ->
    Forall (fun c => in_charset cs c = true) r ->
    matches re m ->
    matches (Rep cs lo :: re) (r ++ m).


(** ** The email shape rule, in the specification's words *)

Definition is_upper (c : N) : bool := ((65 <=? c) && (c <=? 90))%N.
Definition is_lower (c : N) : bool := ((97 <=? c) && (c <=? 122))%N.
Definition is_letter (c : N) : bool := is_upper c || is_lower c.
Definition is_digit (c : N) : bool := ((48 <=? c) && (c <=? 57))%N.

(** letters, digits and [. _ % + -] *)
Definition local_char (c : N) : bool :=
  (is_letter c || is_digit c
   || (c =? 46) || (c =? 95) || (c =? 37) || (c =? 43) || (c =? 45))%N.

(** letters, digits, [.] and [-] *)
Definition domain_char (c : N) : bool :=
  (is_letter c || is_digit c || (c =? 46) || (c =? 45))%N.

(** local part, [@], domain labels, [.], and a final label of at least two
    letters *)
Definition email_shape (e : str) : Prop :=
  exists l d t,
    e = l ++ [64%N] ++ d ++ [46%N] ++ t
    /\ l ≠ [] /\ Forall (fun c => local_char c = true) l
    /\ Forall (fun c => domain_char c = true) d
    /\ (2 <= length t)%nat /\ Forall (fun c => is_letter c = true) t.

(** entirely lower case: lower-casing changes nothing *)
Definition lowercase (e : str) : Prop := lower e = e.

(** The four code points outside ASCII that [[a-z]] and [[A-Z]] match under
    IGNORECASE: U+0130, U+0131, U+017F and U+212A. *)
Definition ignorecase_extra (c : N) : Prop :=
  c = 304%N \/ c = 305%N \/ c = 383%N \/ c = 8490%N.

(** The code points an address returned by [extract_emails] can hold. *)
Definition address_char (c : N) : bool :=
  (is_lower c || is_digit c
   || (c =? 46) || (c =? 95) || (c =? 37) || (c =? 43) || (c =? 45)
   || (c =? 64) || (c =? 305) || (c =? 383) || (c =? 775))%N.

(** What [lower] does to a code point other than U+0130: a capital gives
    its small letter and the Kelvin sign U+212A gives k. *)
Definition to_lower (c : N) : N :=
  (if is_upper c then c + 32 else if c =? 8490 then 107 else c)%N.

(** The three code points that [[a-z]] and [[A-Z]] match under IGNORECASE
    and that leave something other than an ASCII letter in the address:
    U+0130, U+0131 and U+017F. *)
Definition non_ascii_match (c : N) : Prop :=
  c = 304%N \/ c = 305%N \/ c = 383%N.

(** The code points a match of [EMAIL_RE] can hold. *)
Definition match_char (c : N) : Prop :=
  local_char c = true \/ c = 64%N \/ ignorecase_extra c.

(** The three character sets of [EMAIL_RE]. *)
Definition cs_local : charset :=
  [CRange 97 122; CRange 65 90; CRange 48 57;
   CChar 46; CChar 95; CChar 37; CChar 43; CChar 45].
Definition cs_domain : charset :=
  [CRange 97 122; CRange 65 90; CRange 48 57; CChar 46; CChar 45].
Definition cs_letter : charset := [CRange 97 122; CRange 65 90].

Definition extra_b (c : N) : bool :=
  ((c =? 304) || (c =? 305) || (c =? 383) || (c =? 8490))%N.

(** Facts about a class of code points are settled by running the class on
    every code point up to a bound, once the class is known to hold nothing
    above it. *)
Ltac b2p H :=
  rewrite ?orb_true_iff, ?andb_true_iff, ?N.leb_le, ?N.eqb_eq in H.

Ltac n_case :=
  match goal with
  | |- context [(?a <=? ?b)%N] =>
      lazymatch a with context [if _ then _ else _] => fail | _ => idtac end;
      lazymatch b with context [if _ then _ else _] => fail | _ => idtac end;
      destruct (N.leb_spec a b)
  | |- context [(?a =? ?b)%N] =>
      lazymatch a with context [if _ then _ else _] => fail | _ => idtac end;
      lazymatch b with context [if _ then _ else _] => fail | _ => idtac end;
      destruct (N.eqb_spec a b)
  end; try (exfalso; lia); cbn [andb orb negb].

Ltac n_cases := repeat n_case.


(** ** Standard output

    Standard output takes every line, and printing changes nothing else:
    the assumption under which [print] cannot raise. *)
Definition quiet (W : Type) `{Outside W} : Prop :=
  forall (w : W) (l : line), stdout_write w l = (None, w).

(** ** Reading a run off its trace *)

(** The fetches of [scrape_websites] are told apart by their timeout: 15
    seconds for the page of a URL, 10 for its [/contact] page. *)
Definition primary_fetches (evs : list event) : list (str * response) :=
  flat_map (fun ev => match ev with
                      | Get Plain u t r => if t =? 15 then [(u, r)] else []
                      | _ => []
                      end) evs.

Definition contact_fetches (evs : list event) : list (str * response) :=
  flat_map (fun ev => match ev with
                      | Get Plain u t r => if t =? 10 then [(u, r)] else []
                      | _ => []
                      end) evs.

(** The requests for search pages, made with the stealthy fetcher. *)
Definition search_fetches (evs : list event) : list (str * response) :=
  flat_map (fun ev => match ev with
                      | Get Stealthy u _ r => [(u, r)]
                      | _ => []
                      end) evs.

(** An event that touches neither the network nor the file system. *)
Definition is_print (ev : event) : bool :=
  match ev with Print _ => true | _ => false end.



(** What [scrape_websites] does to the outside: it prints, and it fetches
    with the plain fetcher and a timeout of 15 or 10 seconds. *)
Definition website_event (ev : event) : bool :=
  match ev with
  | Print _ => true
  | Get Plain _ t _ => (t =? 15) || (t =? 10)
  | _ => false
  end.

(** What the search does: it prints, and it fetches with the stealthy
    fetcher and a timeout of 20 seconds. *)
Definition search_event (ev : event) : bool :=
  match ev with
  | Print _ => true
  | Get Stealthy _ t _ => t =? 20
  | _ => false
  end.

(** The fetch of the page of a URL, or the line [[skip] No response]. *)
Definition fetch_or_skip (ev : event) : bool :=
  match ev with
  | Get Plain _ t _ => t =? 15
  | Print SkipNoResponse => true
  | _ => false
  end.

(** The fetch gave a page. *)
Definition is_page (r : response) : bool :=
  match r with Return (Some _) => true | _ => false end.

(** The fetch gave a page or raised: anything but [None]. *)
Definition answered (r : response) : bool :=
  match r with Return None => false | _ => true end.

(** The fetches [fs], each one that returned [None] followed by the skip
    line. *)
Definition with_skips (fs : list (str * response)) : list event :=
  flat_map (fun f => Get Plain f.1 15 f.2
                     :: if answered f.2 then [] else [Print SkipNoResponse])
           fs.

(** A URL that is not blank: something is left of it after [strip]. *)
Definition nonblank (url : str) : bool := truthy (strip url).

(** The record [rec] is that of the fetch [f]: it carries the URL fetched,
    and is empty when the fetch raised. *)
Definition record_of (rec : lead) (f : str * response) : Prop :=
  source rec = f.1
  /\ (forall e, f.2 = Raise e -> emails rec = [] /\ email_count rec = 0).

(** ** The [emails] field read back

    [field.split(", ")], and the list of addresses a field holds: none for
    the empty field. *)
Fixpoint split_from (cur : str) (s : str) : list str :=
  match s with
  | [] => [cur]
  | c :: s' =>
      match s' with
      | c' :: s'' =>
          if ((c =? 44) && (c' =? 32))%N then cur :: split_from [] s''
          else split_from (cur ++ [c]) s'
      | [] => [cur ++ [c]]
      end
  end.

Definition listed (field : str) : list str :=
  if truthy field then split_from [] field else [].

(** An address as [extract_emails] returns them: not empty, and of
    address characters only. *)
Definition address (e : str) : Prop :=
  e ≠ [] /\ Forall (fun c => address_char c = true) e.

(** A record made by [make_lead] from addresses. *)
Definition counted (r : lead) : Prop :=
  exists found, Forall address found
                /\ r = make_lead (source r) found (scraped_at r).

(** ** The search pages *)

(** The URL of the search page number [page_num], counted from 0. *)
Definition page_url (query : str) (page_num : Z) : str :=
  search_url query (page_num * 10).

(** The requests [scrape_google_search] sets out to make. *)
Definition planned (query : str) (limit : Z) : list str :=
  page_url query <$> py_range (pages_needed limit).

(** ** The command line *)



(** ** Scripted worlds

    A world that answers from fixed tables, whatever was asked before, and
    whose standard output takes every line; the runs worked out below take
    place in such worlds. *)
Record script : Type :=
  { plain : str -> Z -> response;
    stealthy : str -> Z -> response;
    clock : str;
    files : str -> str + exn;
    disk : option exn }.

#[export] Instance script_Outside : Outside script :=
  {| Fetcher_get w url timeout := (plain w url timeout, w);
     StealthyFetcher_get w url timeout := (stealthy w url timeout, w);
     datetime_now w := (clock w, w);
     read_text w filepath := (files w filepath, w);
     write_csv w _ _ _ := (disk w, w);
     stdout_write w _ := (None, w) |}.

(** The start of a run in the world [w]. *)
Definition start (w : script) : state := {| world := w; trace := [] |}.

(** A page with the given content and links. *)
Definition a_page (content : string) (links : list string) : page :=
  {| html_content := lit content; anchors := (fun l => Some (lit l)) <$> links |}.

(** A world where nothing answers: every fetch returns [None]. *)
Definition silent : script :=
  {| plain _ _ := Return None; stealthy _ _ := Return None;
     clock := lit "2024-01-01T00:00:00";
     files _ := inr (lit "No such file or directory"); disk := None |}.

(** ** The [/contact] fallback *)

(** The fallback is due: the fetch gave a page, the extractor found nothing
    in it, and the URL does not end in [/contact] once its trailing slashes
    are gone. *)
Definition fallback_due (url : str) (r : response) : bool :=
  match r with
  | Return (Some p) =>
      negb (truthy (extract_emails (html_content p)))
      && negb (endswith (lit "/contact") (rstrip_slash url))
  | _ => false
  end.

(** The addresses the fallback fetch gives: those of the contact page, or
    none when the fetch raised or returned [None]. *)
Definition contact_emails (r : response) : list str :=
  match r with
  | Return (Some contact_page) => extract_emails (html_content contact_page)
  | _ => []
  end.

(** A shop whose home page holds no address and whose contact page holds
    one. *)
Definition shop : script :=
  {| plain _ timeout :=
       if timeout =? 15 then Return (Some (a_page "Welcome to the shop" []))
       else Return (Some (a_page "Write to Owner@Shop.test" []));
     stealthy _ _ := Return None;
     clock := lit "2024-01-01T00:00:00";
     files _ := inr (lit "No such file or directory"); disk := None |}.

(** A search engine every page of which holds the same links. *)
Definition engine (links : list string) : script :=
  {| plain _ _ := Return None;
     stealthy _ _ := Return (Some (a_page "" links));
     clock := lit "2024-01-01T00:00:00";
     files _ := inr (lit "No such file or directory"); disk := None |}.

Definition ten_links : list string :=
  [ "http://a0.test"; "http://a1.test"; "http://a2.test"; "http://a3.test";
    "http://a4.test"; "http://a5.test"; "http://a6.test"; "http://a7.test";
    "http://a8.test"; "http://a9.test" ]%string.

Definition fifteen_links : list string :=
  ten_links ++ [ "http://b0.test"; "http://b1.test"; "http://b2.test";
                 "http://b3.test"; "http://b4.test" ]%string.


(** ** A console that encodes ASCII only

    The strings a line is formatted from, and a world like a scripted one
    except that its standard output raises [UnicodeEncodeError] on a line
    holding a code point above 127. The summary line of [save_csv] holds
    two, U+2713 and U+2192. *)
Definition line_args (l : line) : list str :=
  match l with
  | Fetching url => [url]
  | TryingContact contact_url => [contact_url]
  | Found _ emails => emails
  | Error e | SearchError e => [e]
  | SearchPage _ search_url => [search_url]
  | Loaded _ filepath => [filepath]
  | Saved _ _ output_path => [[10003%N; 8594%N]; output_path]
  | SourceLine _ output => [output]
  | ErrorRequired flag _ => [flag]
  | SkipNoResponse | Collected _ | NoResults | Banner => []
  end.

Definition ascii_only (l : line) : bool :=
  forallb (forallb (fun c => c <? 128)%N) (line_args l).

Record ascii_console : Type := { behind : script }.

#[export] Instance ascii_console_Outside : Outside ascii_console :=
  {| Fetcher_get w url timeout :=
       (plain (behind w) url timeout, w);
     StealthyFetcher_get w url timeout :=
       (stealthy (behind w) url timeout, w);
     datetime_now w := (clock (behind w), w);
     read_text w filepath := (files (behind w) filepath, w);
     write_csv w _ _ _ := (disk (behind w), w);
     stdout_write w l :=
       (if ascii_only l then None else Some (lit "UnicodeEncodeError"), w) |}.


(** A shop whose home page is empty. *)
Definition empty_shop : script :=
  {| plain _ timeout :=
       if timeout =? 15 then Return (Some (a_page "" []))
       else Return (Some (a_page "Write to Owner@Shop.test" []));
     stealthy _ _ := Return None;
     clock := lit "2024-01-01T00:00:00";
     files _ := inr (lit "No such file or directory"); disk := None |}.

(** A page with an address that begins with the dotless i, U+0131, which
    [[a-z]] matches under IGNORECASE, and a world where a search lists one
    site and every site shows that page. *)
Definition dotless_page : page :=
  {| html_content := lit "mail " ++ [305%N] ++ lit "nfo@shop.test";
     anchors := [] |}.

Definition dotless : script :=
  {| plain _ _ := Return (Some dotless_page);
     stealthy _ _ := Return (Some (a_page "" ["http://shop.test"%string]));
     clock := lit "2024-01-01T00:00:00";
     files _ := inr (lit "No such file or directory"); disk := None |}.

(** ** The links of a search page *)

(** [link.attrib.get("href") or ""] *)
Definition href_of (link : option str) : str :=
  match link with Some h => h | None => lit "" end.

(** The link is kept: absolute, and not on the search engine's domain. *)
Definition kept (href : str) : bool :=
  startswith (lit "http") href && negb (contains (lit "google.com") href).

(** ** Lines *)

Definition no_linebreak (l : str) : Prop :=
  Forall (fun c => is_linebreak c = false) l.

(** ** More scripted worlds *)

(** The shop, with a disk that cannot be written. *)
Definition shop_readonly : script :=
  {| plain := plain shop; stealthy := stealthy shop; clock := clock shop;
     files := files shop; disk := Some (lit "Permission denied") |}.

(** A world with a file of three lines, the second blank, where every page
    is the contact page of the shop. *)
Definition with_file : script :=
  {| plain _ _ := Return (Some (a_page "Write to Owner@Shop.test" []));
     stealthy _ _ := Return None;
     clock := lit "2024-01-01T00:00:00";
     files _ := inl (lit "http://a.test" ++ [10%N; 32%N; 10%N]
                     ++ lit "http://b.test" ++ [10%N]);
     disk := None |}.

(** The command lines of the three modes. *)
Definition website_args (urls : list string) : args :=
  {| arg_source := website; arg_urls := Some (lit <$> urls);
     arg_query := None; arg_limit := 30; arg_file := None;
     arg_output := lit "leads_output.csv" |}.

Definition google_args (query : string) (limit : Z) : args :=
  {| arg_source := google; arg_urls := None; arg_query := Some (lit query);
     arg_limit := limit; arg_file := None;
     arg_output := lit "leads_output.csv" |}.

Definition file_args (path : string) : args :=
  {| arg_source := file; arg_urls := None; arg_query := None;
     arg_limit := 30; arg_file := Some (lit path);
     arg_output := lit "leads_output.csv" |}.
(** * Properties *)

(** ** The email extractor *)

Lemma first_occurrences_elem (l : list str) (x : str) :
  x ∈ first_occurrences l ↔ x ∈ l.
Proof.
  revert x. induction l as [|a l IH]; intros x; simpl; [done|].
  rewrite !elem_of_cons, list_elem_of_filter, IH.
  destruct (decide (x = a)); naive_solver.
Qed.


Lemma filter_not_in_snoc (out l : list str) (n : str) :
  filter (fun x => x ∉ out ++ [n]) l
  = filter (fun x => x ∉ out) (filter (fun y => y ≠ n) l).
Proof.
  rewrite list_filter_filter. apply list_filter_iff. intros x.
  rewrite elem_of_app, list_elem_of_singleton. naive_solver.
Qed.

Lemma filter_not_in_absorb (out l : list str) (n : str) :
  n ∈ out ->
  filter (fun x => x ∉ out) (filter (fun y => y ≠ n) l)
  = filter (fun x => x ∉ out) l.
Proof.
  intros Hn. rewrite list_filter_filter. apply list_filter_iff. intros x.
  split; [naive_solver|]. intros Hx. split; [done|]. by intros ->.
Qed.

(** The loop invariant of [clean_emails]: [seen] holds what [out] holds, and
    the loop appends to [out] the first occurrences still to come. *)
Lemma clean_loop_spec (raw : list str) (seen : gset str) (out : list str) :
  (forall x, x ∈ seen ↔ x ∈ out) ->
  clean_loop raw seen out
  = out ++ filter (fun x => x ∉ out) (first_occurrences (survivors raw)).
Proof.
  revert seen out. induction raw as [|e raw IH]; intros seen out Hseen.
  - simpl. by rewrite app_nil_r.
  - cbn [clean_loop]. fold (normalize e). unfold survivors in *.
    rewrite fmap_cons, filter_cons. fold (denylisted (normalize e)).
    destruct (decide (denylisted (normalize e))) as [Hd|Hd].
    + rewrite bool_decide_true by done.
      destruct (decide (¬ denylisted (normalize e))); [done|]. by apply IH.
    + rewrite bool_decide_false by done.
      destruct (decide (¬ denylisted (normalize e))); [|done].
      cbn [first_occurrences]. rewrite filter_cons.
      destruct (decide (normalize e ∈ seen)) as [Hin|Hin].
      * rewrite bool_decide_false by naive_solver.
        apply Hseen in Hin.
        destruct (decide (normalize e ∉ out)); [done|].
        rewrite filter_not_in_absorb by done. by apply IH.
      * rewrite bool_decide_true by done.
        assert (normalize e ∉ out) by (by rewrite <- Hseen).
        destruct (decide (normalize e ∉ out)); [|done].
        rewrite (IH ({[normalize e]} ∪ seen) (out ++ [normalize e])).
        -- rewrite filter_not_in_snoc, <- app_assoc. done.
        -- intros x. rewrite elem_of_union, elem_of_singleton, elem_of_app,
             list_elem_of_singleton, Hseen. naive_solver.
Qed.

Lemma clean_emails_spec (raw : list str) :
  clean_emails raw = first_occurrences (survivors raw).
Proof.
  unfold clean_emails. rewrite (clean_loop_spec raw ∅ []).
  - simpl. generalize (first_occurrences (survivors raw)).
    induction l as [|a l IHl]; [done|].
    rewrite filter_cons_True by apply not_elem_of_nil. by rewrite IHl.
  - intros x. rewrite elem_of_nil. set_solver.
Qed.

(** C5. On the text "Contact us at Sales@Shop.com or support@gmail.com" the
    pattern finds the two addresses, and [extract_emails] returns exactly
    ["sales@shop.com"]: the gmail.com address is dropped by the denylist
    and Sales@Shop.com comes out in lower case. *)
Theorem extract_emails_scenario :
  let text := lit "Contact us at Sales@Shop.com or support@gmail.com" in
  findall EMAIL_RE text = [lit "Sales@Shop.com"; lit "support@gmail.com"]
  /\ denylisted (normalize (lit "support@gmail.com"))
  /\ extract_emails text = [lit "sales@shop.com"].
Proof.
  cbv zeta. split; [by vm_compute|]. split; [|by vm_compute].
  unfold denylisted. refine (bool_decide_unpack _ _). by vm_compute.
Qed.


(** ** The matcher *)

Lemma try_down_Some (f : nat -> option nat) (lo k r : nat) :
  try_down f lo k = Some r ->
  exists j n, (lo <= j <= k)%nat /\ f j = Some n /\ r = (j + n)%nat.
Proof.
  induction k as [|k IH]; simpl.
  - destruct (Nat.ltb_spec 0 lo); [done|].
    destruct (f 0%nat) as [n|] eqn:Hf; [|done].
    intros [= <-]. exists 0%nat, n. repeat split; [lia..|done].
  - destruct (Nat.ltb_spec (S k) lo); [done|].
    destruct (f (S k)) as [n|] eqn:Hf.
    + intros [= <-]. exists (S k), n. repeat split; [lia..|done].
    + intros (j & n & Hj & Hfj & ->)%IH. exists j, n. repeat split; [lia..|done].
Qed.

Lemma span_take (p : N -> bool) (s : str) (j : nat) :
  (j <= span p s)%nat ->
  (j <= length s)%nat /\ Forall (fun c => p c = true) (take j s).
Proof.
  revert j. induction s as [|c s IH]; intros j; simpl.
  - intros Hj. assert (j = 0%nat) as -> by lia. by split.
  - destruct j as [|j]; [split; [lia|constructor]|].
    destruct (p c) eqn:Hp; [|lia]. intros Hj.
    destruct (IH j) as [? ?]; [lia|]. split; [lia|]. simpl. by constructor.
Qed.

Lemma take_add_drop (s : str) (j n : nat) :
  take (j + n) s = take j s ++ take n (drop j s).
Proof.
  revert s. induction j as [|j IH]; intros s; simpl; [done|].
  destruct s as [|c s]; simpl; [by rewrite take_nil|]. by rewrite IH.
Qed.

(** The matcher is sound: what it reports matches the pattern. *)
Lemma match_here_sound (re : pattern) (s : str) (n : nat) :
  match_here re s = Some n ->
  (n <= length s)%nat /\ matches re (take n s).
Proof.
  revert s n. induction re as [|a re IH]; intros s n; simpl.
  - intros [= <-]. split; [lia|]. rewrite take_0. constructor.
  - destruct a as [c|cs lo].
    + destruct s as [|x s]; [done|].
      destruct (N.eqb_spec x c) as [->|]; [|done].
      destruct (match_here re s) as [k|] eqn:Hm; [|done].
      simpl. intros [= <-]. destruct (IH _ _ Hm) as [? ?].
      split; [simpl; lia|]. simpl. by constructor.
    + intros (j & k & Hj & Hm & ->)%try_down_Some.
      destruct (IH _ _ Hm) as [Hk Hmatch].
      destruct (span_take (in_charset cs) s j) as [Hlen Hall]; [lia|].
      rewrite length_drop in Hk. split; [lia|].
      rewrite take_add_drop. constructor; [|done..].
      rewrite length_take. lia.
Qed.

Lemma findall_from_sound (re : pattern) (skip : nat) (s m : str) :
  m ∈ findall_from re skip s ->
  matches re m /\ (forall c, c ∈ m -> c ∈ s).
Proof.
  revert skip. induction s as [|x s IH]; intros skip; simpl.
  - by intros ?%elem_of_nil.
  - assert (forall k, m ∈ findall_from re k s ->
                      matches re m /\ (forall c, c ∈ m -> c ∈ x :: s)) as IH'.
    { intros k [? Hc]%IH. split; [done|]. intros c ?%Hc. by right. }
    destruct skip as [|k]; [|by apply IH'].
    destruct (match_here re (x :: s)) as [n|] eqn:Hm; [|by apply IH'].
    intros [->|Hin]%elem_of_cons; [|by eapply IH'].
    destruct (match_here_sound _ _ _ Hm) as [_ ?]. split; [done|].
    intros c Hc. eapply elem_of_sublist; [exact Hc|apply sublist_take].
Qed.

(** ** The character sets of [EMAIL_RE] *)

Lemma range_elem (lo hi c : N) : (lo <= c <= hi)%N -> In c (range lo hi).
Proof.
  intros Hc. unfold range. apply in_map_iff. exists (N.to_nat c).
  split; [apply N2Nat.id|]. apply in_seq. lia.
Qed.

Lemma check_below (B : N) (P : N -> bool) (c : N) :
  forallb P (range 0 B) = true -> (c <= B)%N -> P c = true.
Proof.
  intros Hall Hc. rewrite forallb_forall in Hall.
  apply Hall, range_elem. lia.
Qed.

Lemma extra_b_spec (c : N) : extra_b c = true -> ignorecase_extra c.
Proof. unfold extra_b, ignorecase_extra. intros Hc. b2p Hc. tauto. Qed.

(** The code points the matcher's lower-case mapping sends to [x]. *)
Lemma sre_lower_inv (c x : N) :
  sre_lower c = x ->
  c = x \/ ((65 <= c <= 90)%N /\ x = (c + 32)%N) \/ ignorecase_extra c.
Proof.
  unfold sre_lower, ignorecase_extra. intros <-. n_cases; tauto.
Qed.

(** A set matches a code point of the class [P], or one of the four
    code points IGNORECASE adds, as soon as every member [x] of its
    character map is in [P] or is one of the four, together with its
    capital when [x] is a small letter. *)
Lemma in_charset_by (cs : charset) (P : N -> bool) (c : N) :
  forallb (fun x => (P x || extra_b x)
                    && (if is_lower x then P (x - 32)%N else true))
          (charmap cs) = true ->
  in_charset cs c = true -> P c = true \/ ignorecase_extra c.
Proof.
  intros Hmap Hc. unfold in_charset in Hc.
  apply existsb_exists in Hc as (x & Hin & Heq). apply N.eqb_eq in Heq.
  rewrite forallb_forall in Hmap. apply Hmap in Hin.
  apply andb_true_iff in Hin as [Hx Hcap].
  destruct (sre_lower_inv c x Heq) as [->|[[Hup ->]|?]]; [|left|by right].
  - apply orb_true_iff in Hx as [?|?%extra_b_spec]; tauto.
  - assert (is_lower (c + 32) = true) as Hl.
    { unfold is_lower. apply andb_true_iff. rewrite !N.leb_le. lia. }
    rewrite Hl in Hcap. by replace (c + 32 - 32)%N with c in Hcap by lia.
Qed.

Lemma in_cs_local (c : N) :
  in_charset cs_local c = true -> local_char c = true \/ ignorecase_extra c.
Proof. apply in_charset_by. by vm_compute. Qed.

Lemma in_cs_domain (c : N) :
  in_charset cs_domain c = true -> domain_char c = true \/ ignorecase_extra c.
Proof. apply in_charset_by. by vm_compute. Qed.

Lemma in_cs_letter (c : N) :
  in_charset cs_letter c = true -> is_letter c = true \/ ignorecase_extra c.
Proof. apply in_charset_by. by vm_compute. Qed.

(** The three classes of the shape rule hold ASCII only. *)
Lemma local_char_bound (c : N) : local_char c = true -> (c <= 122)%N.
Proof.
  unfold local_char, is_letter, is_upper, is_lower, is_digit.
  intros Hc. b2p Hc. lia.
Qed.

Lemma domain_char_local (c : N) : domain_char c = true -> local_char c = true.
Proof.
  unfold domain_char, local_char. rewrite !orb_true_iff. tauto.
Qed.

Lemma is_letter_local (c : N) : is_letter c = true -> local_char c = true.
Proof. unfold local_char. by intros ->. Qed.

(** What a match of [EMAIL_RE] is made of. *)
Lemma matches_EMAIL_RE (m : str) :
  matches EMAIL_RE m ->
  exists l d t,
    m = l ++ [64%N] ++ d ++ [46%N] ++ t
    /\ (1 <= length l)%nat /\ Forall (fun c => in_charset cs_local c = true) l
    /\ (1 <= length d)%nat /\ Forall (fun c => in_charset cs_domain c = true) d
    /\ (2 <= length t)%nat /\ Forall (fun c => in_charset cs_letter c = true) t.
Proof.
  unfold EMAIL_RE. intros H1.
  inversion H1 as [| |? ? ? l m1 Hl Hlc H2]; subst; clear H1.
  inversion H2 as [|? ? m2 H3|]; subst; clear H2.
  inversion H3 as [| |? ? ? d m3 Hd Hdc H4]; subst; clear H3.
  inversion H4 as [|? ? m4 H5|]; subst; clear H4.
  inversion H5 as [| |? ? ? t m5 Ht Htc H6]; subst; clear H5.
  inversion H6; subst; clear H6.
  exists l, d, t. rewrite app_nil_r. by repeat split.
Qed.

(** ** Normalizing a match *)

Lemma lower_app (a b : str) : lower (a ++ b) = lower a ++ lower b.
Proof. unfold lower. by rewrite map_app, concat_app. Qed.

Lemma lower_cons (c : N) (s : str) : lower (c :: s) = lower_char c ++ lower s.
Proof. done. Qed.

Lemma lower_char_plain (c : N) :
  c ≠ 304%N -> lower_char c = [to_lower c].
Proof. unfold lower_char, to_lower, is_upper. intros ?. by n_cases. Qed.

Lemma lower_plain (s : str) :
  Forall (fun c => c ≠ 304%N) s -> lower s = map to_lower s.
Proof.
  induction 1 as [|c s Hc _ IH]; [done|].
  by rewrite lower_cons, IH, lower_char_plain.
Qed.

Lemma rstrip_by_id (p : N -> bool) (s : str) :
  Forall (fun c => p c = false) s -> rstrip_by p s = s.
Proof.
  induction 1 as [|c s Hc _ IH]; [done|].
  simpl. rewrite IH, Hc. by destruct s.
Qed.

Lemma strip_id (s : str) :
  Forall (fun c => isspace c = false) s -> strip s = s.
Proof.
  intros Hs. unfold strip.
  assert (lstrip_by isspace s = s) as ->.
  { destruct Hs as [|c s Hc _]; [done|]. simpl. by rewrite Hc. }
  by apply rstrip_by_id.
Qed.

Lemma address_char_bound (c : N) : address_char c = true -> (c <= 775)%N.
Proof.
  unfold address_char, is_lower, is_digit. intros Hc. b2p Hc. lia.
Qed.

Lemma address_char_not_space (c : N) :
  address_char c = true -> isspace c = false.
Proof.
  intros Hc. pose proof (address_char_bound c Hc) as Hle.
  pose proof (check_below 775 (fun c => implb (address_char c)
                                          (negb (isspace c))) c) as Himp.
  cbv beta in Himp. rewrite Hc in Himp.
  apply negb_true_iff, Himp; [by vm_compute|done].
Qed.

Lemma lower_char_address (c : N) :
  match_char c -> Forall (fun x => address_char x = true) (lower_char c).
Proof.
  unfold match_char, ignorecase_extra.
  intros [Hc|[->|[->|[->|[->| ->]]]]]; [|by repeat constructor..].
  pose proof (local_char_bound c Hc) as Hle.
  pose proof (check_below 122 (fun c => implb (local_char c)
                 (forallb address_char (lower_char c))) c) as Himp.
  cbv beta in Himp. rewrite Hc in Himp.
  apply Forall_forall. intros x Hx%list_elem_of_In.
  eapply (proj1 (forallb_forall _ _)); [|exact Hx].
  apply Himp; [by vm_compute|done].
Qed.

Lemma lower_address (s : str) :
  Forall match_char s -> Forall (fun x => address_char x = true) (lower s).
Proof.
  induction 1 as [|c s Hc _ IH]; [constructor|].
  rewrite lower_cons. apply Forall_app. split; [by apply lower_char_address|done].
Qed.

Lemma lower_nonempty (s : str) : s ≠ [] -> lower s ≠ [].
Proof.
  destruct s as [|c s]; [done|]. intros _. rewrite lower_cons.
  unfold lower_char. by repeat case_match.
Qed.

Lemma matches_chars (m : str) :
  matches EMAIL_RE m -> m ≠ [] /\ Forall match_char m.
Proof.
  intros (l & d & t & -> & Hl & Hlc & _ & Hdc & _ & Htc)%matches_EMAIL_RE.
  split; [destruct l; [simpl in Hl; lia|done]|].
  unfold match_char.
  repeat (apply Forall_app; split); try (constructor; [tauto|constructor]).
  - eapply Forall_impl; [exact Hlc|]. intros c ?%in_cs_local. tauto.
  - eapply Forall_impl; [exact Hdc|]. intros c [Hc|?]%in_cs_domain; [|tauto].
    left. by apply domain_char_local.
  - eapply Forall_impl; [exact Htc|]. intros c [Hc|?]%in_cs_letter; [|tauto].
    left. by apply is_letter_local.
Qed.

(** The addresses [extract_emails] returns are normalized matches. *)
Lemma extract_emails_elem (text e : str) :
  e ∈ extract_emails text ->
  exists m, e = normalize m /\ matches EMAIL_RE m /\ (forall c, c ∈ m -> c ∈ text).
Proof.
  unfold extract_emails. rewrite clean_emails_spec, first_occurrences_elem.
  unfold survivors. rewrite list_elem_of_filter, list_elem_of_fmap.
  intros [_ (m & -> & Hm)]. exists m. split; [done|].
  by apply (findall_from_sound _ 0%nat).
Qed.

(** Every address returned is non-empty and made of address characters:
    none of them is white space or a comma. *)
Lemma extract_emails_chars (text e : str) :
  e ∈ extract_emails text ->
  e ≠ [] /\ Forall (fun c => address_char c = true) e.
Proof.
  intros (m & -> & [Hne Hm]%matches_chars & _)%extract_emails_elem.
  unfold normalize. pose proof (lower_address m Hm) as Hl.
  rewrite strip_id.
  - split; [by apply lower_nonempty|done].
  - eapply Forall_impl; [exact Hl|]. apply address_char_not_space.
Qed.

(** ** The shape of the addresses *)

(** Lower-casing keeps a code point in its class. *)
Lemma to_lower_class (P : N -> bool) (c : N) :
  (forall c, P c = true -> local_char c = true) ->
  forallb (fun c => implb (P c) (P (to_lower c))) (range 0 122) = true ->
  P c = true -> P (to_lower c) = true.
Proof.
  intros Hloc Hall Hc.
  pose proof (check_below 122 _ c Hall (local_char_bound c (Hloc c Hc))) as Himp.
  cbv beta in Himp. by rewrite Hc in Himp.
Qed.

Lemma to_lower_local (c : N) :
  local_char c = true -> local_char (to_lower c) = true.
Proof. apply to_lower_class; [done|by vm_compute]. Qed.

Lemma to_lower_domain (c : N) :
  domain_char c = true -> domain_char (to_lower c) = true.
Proof. apply to_lower_class; [apply domain_char_local|by vm_compute]. Qed.

Lemma to_lower_letter (c : N) :
  is_letter c = true -> is_letter (to_lower c) = true.
Proof. apply to_lower_class; [apply is_letter_local|by vm_compute]. Qed.

Lemma to_lower_fixed (c : N) :
  c ≠ 304%N -> lower_char (to_lower c) = [to_lower c].
Proof.
  unfold lower_char, to_lower, is_upper. intros Hc.
  n_cases; try done; exfalso; lia.
Qed.

Lemma lower_to_lower (s : str) :
  Forall (fun c => c ≠ 304%N) s ->
  lower (map to_lower s) = map to_lower s.
Proof.
  induction 1 as [|c s Hc _ IH]; [done|].
  cbn [map]. by rewrite lower_cons, IH, to_lower_fixed.
Qed.

(** A matched code point that is none of U+0130, U+0131 and U+017F goes,
    lower-cased, into the class of its set. *)
Lemma Forall_class_lower (P : N -> bool) (cs : charset) (s : str) :
  (forall c, in_charset cs c = true -> P c = true \/ ignorecase_extra c) ->
  (forall c, P c = true -> P (to_lower c) = true) ->
  P 107%N = true ->
  Forall (fun c => ¬ non_ascii_match c) s ->
  Forall (fun c => in_charset cs c = true) s ->
  Forall (fun c => P (to_lower c) = true) s.
Proof.
  intros Hcs Hlow Hk Hs Hin. induction Hin as [|c s Hc _ IH]; [constructor|].
  inversion Hs as [|? ? Hn Hs']; subst. constructor; [|by apply IH].
  destruct (Hcs c Hc) as [?|[->|[->|[->| ->]]]]; [by apply Hlow|..|done];
    destruct Hn; unfold non_ascii_match; tauto.
Qed.

(** For every text that holds none of the three code points U+0130, U+0131
    and U+017F, every address [extract_emails] returns is entirely lower
    case and has the email shape: a local part of one or more letters,
    digits or [. _ % + -], then [@], then domain labels of letters, digits,
    [.] and [-], ending in a final label of at least two letters. *)
Theorem extract_emails_shape (text e : str) :
  Forall (fun c => ¬ non_ascii_match c) text ->
  e ∈ extract_emails text ->
  lowercase e /\ email_shape e.
Proof.
  intros Htext (m & -> & Hm & Hsub)%extract_emails_elem.
  assert (Forall (fun c => ¬ non_ascii_match c) m) as Hplain.
  { apply Forall_forall. intros c Hc%Hsub.
    by eapply (proj1 (Forall_forall _ _) Htext). }
  assert (Forall (fun c => c ≠ 304%N) m) as Hdot.
  { eapply Forall_impl; [exact Hplain|]. intros c Hc ->. apply Hc. by left. }
  destruct (matches_chars m Hm) as [_ Hchars].
  assert (normalize m = map to_lower m) as ->.
  { unfold normalize. rewrite strip_id; [by apply lower_plain|].
    eapply Forall_impl; [by apply lower_address|].
    apply address_char_not_space. }
  split; [by apply lower_to_lower|].
  destruct (matches_EMAIL_RE m Hm)
    as (l & d & t & -> & Hl & Hlc & _ & Hdc & Ht & Htc).
  apply Forall_app in Hplain as [Hpl Hplain].
  apply Forall_app in Hplain as [_ Hplain].
  apply Forall_app in Hplain as [Hpd Hplain].
  apply Forall_app in Hplain as [_ Hpt].
  exists (map to_lower l), (map to_lower d), (map to_lower t).
  rewrite !map_app. split; [done|].
  split; [destruct l; [simpl in Hl; lia|done]|].
  rewrite !Forall_map, length_map.
  repeat split; [| |done|].
  - by apply (Forall_class_lower _ cs_local _ in_cs_local to_lower_local).
  - by apply (Forall_class_lower _ cs_domain _ in_cs_domain to_lower_domain).
  - by apply (Forall_class_lower _ cs_letter _ in_cs_letter to_lower_letter).
Qed.

(** A text with capitals and the Kelvin sign, and the address found in it. *)
Lemma extract_emails_shape_witness :
  lowercase (lit "info@acme.ok") /\ email_shape (lit "info@acme.ok").
Proof.
  apply (extract_emails_shape (lit "Write to Info@Acme.O" ++ [8490%N])).
  - apply Forall_forall. intros c Hc Hx.
    assert (((c =? 304) || (c =? 305) || (c =? 383))%N = true) as Hb.
    { destruct Hx as [->|[->| ->]]; reflexivity. }
    apply list_elem_of_In in Hc.
    assert (forallb (fun c => negb ((c =? 304) || (c =? 305) || (c =? 383))%N)
              (lit "Write to Info@Acme.O" ++ [8490%N]) = true) as Hall
      by (vm_compute; reflexivity).
    rewrite forallb_forall in Hall. apply Hall in Hc.
    rewrite Hb in Hc. discriminate.
  - assert (extract_emails (lit "Write to Info@Acme.O" ++ [8490%N])
            = [lit "info@acme.ok"]) as -> by (vm_compute; reflexivity).
    apply list_elem_of_here.
Defined.

(** C4. The claim fails on the text a@b.c followed by U+0130: matching is
    case-insensitive, so the final label takes U+0130 in; lower-casing
    turns it into i followed by the combining dot U+0307, and the address
    returned, a@b.ci with U+0307 at its end, has not the email shape, its
    last code point being no letter. *)
Theorem extract_emails_capital_i_dot :
  let text := lit "a@b.c" ++ [304%N] in
  extract_emails text = [lit "a@b.ci" ++ [775%N]]
  /\ ¬ email_shape (lit "a@b.ci" ++ [775%N])
  /\ ¬ (forall e, e ∈ extract_emails text -> lowercase e /\ email_shape e).
Proof.
  cbv zeta. assert (extract_emails (lit "a@b.c" ++ [304%N])
                    = [lit "a@b.ci" ++ [775%N]]) as Heq by (by vm_compute).
  assert (¬ email_shape (lit "a@b.ci" ++ [775%N])) as Hshape.
  { intros (l & d & t & He & _ & _ & _ & Ht & Htc).
    assert (last (lit "a@b.ci" ++ [775%N]) = Some 775%N) as Hlast by done.
    rewrite He, !app_assoc, last_app in Hlast.
    destruct (last t) as [c|] eqn:Hc.
    - injection Hlast as ->. apply last_Some_elem_of in Hc.
      by apply (proj1 (Forall_forall _ _) Htc) in Hc.
    - apply last_None in Hc. subst t. simpl in Ht. lia. }
  split; [done|]. split; [done|]. rewrite Heq. intros Hall.
  apply Hshape. by apply (Hall _ (list_elem_of_here _ _)).
Qed.

(** ** The [emails] field *)

Lemma split_from_cons (cur : str) (c c' : N) (s : str) :
  split_from cur (c :: c' :: s)
  = if ((c =? 44) && (c' =? 32))%N then cur :: split_from [] s
    else split_from (cur ++ [c]) (c' :: s).
Proof. done. Qed.

Lemma split_from_plain (cur e : str) :
  Forall (fun c => c ≠ 44%N) e -> split_from cur e = [cur ++ e].
Proof.
  intros He. revert cur. induction He as [|c e Hc He IH]; intros cur.
  - simpl. by rewrite app_nil_r.
  - destruct e as [|c' e']; [done|]. rewrite split_from_cons.
    destruct (N.eqb_spec c 44) as [->|_]; [done|]. cbn [andb].
    rewrite IH. by rewrite <- app_assoc.
Qed.

Lemma split_from_sep (cur e rest : str) :
  Forall (fun c => c ≠ 44%N) e ->
  split_from cur (e ++ lit ", " ++ rest) = (cur ++ e) :: split_from [] rest.
Proof.
  intros He. revert cur. induction He as [|c e Hc He IH]; intros cur.
  - simpl. by rewrite app_nil_r.
  - cbn [app].
    destruct (e ++ lit ", " ++ rest) as [|c' e'] eqn:He'.
    { by destruct e. }
    rewrite split_from_cons.
    destruct (N.eqb_spec c 44) as [->|_]; [done|]. cbn [andb].
    rewrite IH. by rewrite <- app_assoc.
Qed.

Lemma split_from_join (cur p : str) (rest : list str) :
  Forall (Forall (fun c => c ≠ 44%N)) (p :: rest) ->
  split_from cur (join (lit ", ") (p :: rest)) = (cur ++ p) :: rest.
Proof.
  revert cur p. induction rest as [|q rest IH]; intros cur p Hall.
  - inversion Hall; subst. by apply split_from_plain.
  - inversion Hall as [|? ? Hp Hrest]; subst.
    change (join (lit ", ") (p :: q :: rest))
      with (p ++ lit ", " ++ join (lit ", ") (q :: rest)).
    rewrite split_from_sep by done. by rewrite IH.
Qed.

Lemma address_no_comma (e : str) :
  address e -> Forall (fun c => c ≠ 44%N) e.
Proof.
  intros [_ He]. eapply Forall_impl; [exact He|].
  intros c Hc ->. by vm_compute in Hc.
Qed.

(** Reading the field back gives the addresses it was made of. *)
Lemma listed_make_lead (url now : str) (found : list str) :
  Forall address found -> listed (emails (make_lead url found now)) = found.
Proof.
  intros Hall. cbn [make_lead emails]. destruct found as [|p rest]; [done|].
  cbn [truthy]. unfold listed.
  assert (truthy (join (lit ", ") (p :: rest)) = true) as ->.
  { inversion Hall as [|? ? [Hp _] _]; subst.
    destruct p as [|c p]; [done|]. by destruct rest. }
  rewrite split_from_join; [done|].
  eapply Forall_impl; [exact Hall|]. apply address_no_comma.
Qed.

Lemma extract_emails_address (text : str) :
  Forall address (extract_emails text).
Proof. apply Forall_forall. intros e He. by apply (extract_emails_chars text). Qed.

(** ** Traces *)

Lemma primary_fetches_app (a b : list event) :
  primary_fetches (a ++ b) = primary_fetches a ++ primary_fetches b.
Proof. apply flat_map_app. Qed.

Lemma contact_fetches_app (a b : list event) :
  contact_fetches (a ++ b) = contact_fetches a ++ contact_fetches b.
Proof. apply flat_map_app. Qed.

Lemma search_fetches_app (a b : list event) :
  search_fetches (a ++ b) = search_fetches a ++ search_fetches b.
Proof. apply flat_map_app. Qed.

Lemma filter_bool_app {A} (p : A -> bool) (a b : list A) :
  List.filter p (a ++ b) = List.filter p a ++ List.filter p b.
Proof. apply List.filter_app. Qed.

(** ** One URL of [scrape_websites] *)

Section Runs.

Context {W : Type} `{Outside W}.

Implicit Types (s : @state W) (url u : str) (results : list lead).

Lemma counted_make_lead url found now :
  Forall address found -> counted (make_lead url found now).
Proof. intros Hf. by exists found. Qed.

Lemma counted_email_count (r : lead) :
  counted r -> email_count r = len (listed (emails r)).
Proof.
  intros (found & Hf & ->). rewrite listed_make_lead by done. done.
Qed.

Lemma try_contact_skip url found s :
  truthy found || endswith (lit "/contact") (rstrip_slash url) = true ->
  try_contact url found s = (Ok found, s).
Proof.
  unfold try_contact. intros Hc.
  by destruct (truthy found), (endswith _ _).
Qed.

Lemma scrape_websites_body_blank url results s :
  nonblank url = false ->
  scrape_websites_body url results s = (Ok results, s).
Proof. unfold nonblank, scrape_websites_body. by intros ->. Qed.

(** From here on standard output takes every line. *)
Hypothesis Hquiet : quiet W.

Ltac quiet_run :=
  repeat first [ rewrite Hquiet | progress cbn [world trace] ].

Lemma print_quiet (l : line) s :
  print l s = (Ok (), {| world := world s; trace := trace s ++ [Print l] |}).
Proof. unfold print. by rewrite Hquiet. Qed.

Lemma try_contact_attempt url s r2 w2 :
  let contact_url := rstrip_slash url ++ lit "/contact" in
  endswith (lit "/contact") (rstrip_slash url) = false ->
  Fetcher_get (world s) contact_url 10 = (r2, w2) ->
  try_contact url [] s
  = (Ok match r2 with
        | Return (Some contact_page) =>
            extract_emails (html_content contact_page)
        | _ => []
        end,
     {| world := w2;
        trace := trace s ++ [Print (TryingContact contact_url);
                             Get Plain contact_url 10 r2] |}).
Proof.
  intros contact_url Hend Hget.
  unfold try_contact, bind, try_except, print, get, ret.
  rewrite Hend. cbn [truthy negb andb]. quiet_run.
  fold contact_url. rewrite Hget.
  destruct r2 as [e|[cp|]]; cbn; by rewrite <- app_assoc.
Qed.

Lemma scrape_websites_body_raise url results s e w1 now w2 :
  nonblank url = true ->
  Fetcher_get (world s) (strip url) 15 = (Raise e, w1) ->
  datetime_now w1 = (now, w2) ->
  scrape_websites_body url results s
  = (Ok (results ++ [make_lead (strip url) [] now]),
     {| world := w2;
        trace := trace s ++ [Print (Fetching (strip url));
                             Get Plain (strip url) 15 (Raise e);
                             Print (Error e)] |}).
Proof.
  unfold nonblank. intros Hu Hget Hnow.
  unfold scrape_websites_body, fetch_lead, on_error, bind, try_except, print,
    get, ret, now_isoformat.
  rewrite Hu. cbn [negb]. quiet_run. rewrite Hget. quiet_run.
  rewrite Hnow. quiet_run. by rewrite <- !app_assoc.
Qed.

Lemma scrape_websites_body_none url results s w1 :
  nonblank url = true ->
  Fetcher_get (world s) (strip url) 15 = (Return None, w1) ->
  scrape_websites_body url results s
  = (Ok results,
     {| world := w1;
        trace := trace s ++ [Print (Fetching (strip url));
                             Get Plain (strip url) 15 (Return None);
                             Print SkipNoResponse] |}).
Proof.
  unfold nonblank. intros Hu Hget.
  unfold scrape_websites_body, fetch_lead, on_error, bind, try_except, print,
    get, ret.
  rewrite Hu. cbn [negb]. quiet_run. rewrite Hget. quiet_run.
  by rewrite <- !app_assoc.
Qed.

Lemma scrape_websites_body_page url results s p w1 found s2 now w3 :
  nonblank url = true ->
  Fetcher_get (world s) (strip url) 15 = (Return (Some p), w1) ->
  try_contact (strip url) (extract_emails (html_content p))
    {| world := w1;
       trace := trace s ++ [Print (Fetching (strip url));
                            Get Plain (strip url) 15 (Return (Some p))] |}
  = (Ok found, s2) ->
  datetime_now (world s2) = (now, w3) ->
  scrape_websites_body url results s
  = (Ok (results ++ [make_lead (strip url) found now]),
     {| world := w3; trace := trace s2 ++ [Print (Found (len found) found)] |}).
Proof.
  unfold nonblank. intros Hu Hget Hcontact Hnow.
  unfold scrape_websites_body, fetch_lead, on_error, bind, try_except, get,
    ret, now_isoformat.
  rewrite Hu. cbn [negb]. rewrite print_quiet. cbn [world trace].
  rewrite Hget. cbn [world trace].
  rewrite <- app_assoc. cbn [app]. rewrite Hcontact, Hnow.
  by rewrite print_quiet.
Qed.

(** What [try_contact] does, whatever the answers. *)
Lemma try_contact_run url found s :
  Forall address found ->
  exists found' s' evs,
    try_contact url found s = (Ok found', s')
    /\ trace s' = trace s ++ evs
    /\ Forall address found'
    /\ primary_fetches evs = []
    /\ Forall (fun ev => website_event ev = true) evs
    /\ List.filter fetch_or_skip evs = [].
Proof.
  intros Hf.
  destruct (truthy found || endswith (lit "/contact") (rstrip_slash url))
    eqn:Hc.
  - exists found, s, []. rewrite try_contact_skip by done.
    rewrite app_nil_r. by repeat split.
  - apply orb_false_iff in Hc as [Hfound Hend].
    destruct found; [|done].
    destruct (Fetcher_get (world s) (rstrip_slash url ++ lit "/contact") 10)
      as [r2 w2] eqn:Hget.
    eexists _, _, _. rewrite (try_contact_attempt _ _ _ _ Hend Hget).
    split; [done|]. cbn [trace]. split; [done|].
    split; [|split; [done|split; [|done]]].
    + destruct r2 as [e|[cp|]]; try constructor. apply extract_emails_address.
    + by repeat constructor.
Qed.

(** What one turn of the loop does, whatever the answers of the fetcher: it
    does not raise, it fetches the page of a URL that is not blank once, it
    adds the record of that fetch unless the fetch returned [None], and then
    it prints the skip line. *)
Lemma scrape_websites_body_run url results s :
  exists new s' evs,
    scrape_websites_body url results s = (Ok (results ++ new), s')
    /\ trace s' = trace s ++ evs
    /\ fst <$> primary_fetches evs = (if nonblank url then [strip url] else [])
    /\ Forall2 record_of new
         (List.filter (fun f => answered f.2) (primary_fetches evs))
    /\ Forall counted new
    /\ Forall (fun ev => website_event ev = true) evs
    /\ List.filter fetch_or_skip evs = with_skips (primary_fetches evs).
Proof.
  destruct (nonblank url) eqn:Hu.
  2: { exists [], s, []. rewrite scrape_websites_body_blank by done.
       rewrite !app_nil_r. repeat split; constructor. }
  destruct (Fetcher_get (world s) (strip url) 15) as [[e|[p|]] w1] eqn:Hget.
  - destruct (datetime_now w1) as [now w2] eqn:Hnow.
    eexists [_], _, _.
    rewrite (scrape_websites_body_raise _ _ _ _ _ _ _ Hu Hget Hnow).
    split; [done|]. cbn [trace]. split; [done|]. cbn.
    split; [done|]. split; [|split; [|split; [|done]]].
    + by repeat constructor.
    + repeat constructor. by apply counted_make_lead.
    + by repeat constructor.
  - destruct (try_contact_run (strip url) (extract_emails (html_content p))
                {| world := w1;
                   trace := trace s ++ [Print (Fetching (strip url));
                             Get Plain (strip url) 15 (Return (Some p))] |}
                (extract_emails_address _))
      as (found & s2 & evs & Hcontact & Htrace & Hfound & Hprim & Hevs & Hsk).
    destruct (datetime_now (world s2)) as [now w3] eqn:Hnow.
    eexists [_], _, _.
    rewrite (scrape_websites_body_page _ _ _ _ _ _ _ _ _ Hu Hget Hcontact Hnow).
    split; [done|]. cbn [trace] in *. rewrite Htrace, <- !app_assoc.
    split; [done|]. rewrite !primary_fetches_app, !filter_bool_app, Hprim, Hsk.
    cbn. split; [done|]. split; [|split; [|split; [|done]]].
    + by repeat constructor.
    + repeat constructor. by apply counted_make_lead.
    + do 2 (constructor; [done|]). apply Forall_app.
      split; [done|]. by repeat constructor.
  - eexists [], _, _. rewrite (scrape_websites_body_none _ _ _ _ Hu Hget).
    rewrite app_nil_r. split; [done|]. cbn [trace]. split; [done|]. cbn.
    repeat split; by repeat constructor.
Qed.

(** The whole loop. *)
Lemma scrape_websites_loop_run (urls : list str) results s :
  exists new s' evs,
    scrape_websites_loop urls results s = (Ok (results ++ new), s')
    /\ trace s' = trace s ++ evs
    /\ fst <$> primary_fetches evs = strip <$> List.filter nonblank urls
    /\ Forall2 record_of new
         (List.filter (fun f => answered f.2) (primary_fetches evs))
    /\ Forall counted new
    /\ Forall (fun ev => website_event ev = true) evs
    /\ List.filter fetch_or_skip evs = with_skips (primary_fetches evs).
Proof.
  revert results s. induction urls as [|url urls IH]; intros results s.
  - exists [], s, []. rewrite !app_nil_r. repeat split; constructor.
  - destruct (scrape_websites_body_run url results s)
      as (new1 & s1 & evs1 & Hrun1 & Htr1 & Hf1 & Hr1 & Hc1 & He1 & Hs1).
    destruct (IH (results ++ new1) s1)
      as (new2 & s2 & evs2 & Hrun2 & Htr2 & Hf2 & Hr2 & Hc2 & He2 & Hs2).
    exists (new1 ++ new2), s2, (evs1 ++ evs2).
    cbn [scrape_websites_loop]. unfold bind at 1. rewrite Hrun1, Hrun2.
    rewrite !app_assoc. split; [done|]. rewrite Htr2, Htr1.
    split; [done|].
    rewrite primary_fetches_app, fmap_app, !filter_bool_app.
    unfold with_skips. rewrite flat_map_app. fold with_skips.
    rewrite Hf1, Hf2, Hs1, Hs2. split; [|split; [|split; [|split; [|done]]]].
    + cbn [List.filter]. by destruct (nonblank url).
    + by apply Forall2_app.
    + by apply Forall_app.
    + by apply Forall_app.
Qed.

End Runs.

(** ** The search pages *)

Lemma collect_links_prefix (links : list (option str)) (limit : Z)
    (c : list str) :
  c `prefix_of` collect_links links limit c.
Proof.
  revert c. induction links as [|link links IH]; intros c; simpl; [done|].
  match goal with
  | |- context [if ?b then c ++ ?x else c] =>
      set (c1 := if b then c ++ x else c)
  end.
  assert (c `prefix_of` c1) as Hc1.
  { subst c1. destruct (_ && _); [by apply prefix_app_r|done]. }
  destruct (len c1 >=? limit); [done|]. by etrans.
Qed.

Lemma collect_links_bound (links : list (option str)) (limit : Z)
    (c : list str) :
  len (collect_links links limit c) <= Z.max limit (len c + 1).
Proof.
  revert c. induction links as [|link links IH]; intros c; simpl; [lia|].
  match goal with
  | |- context [if ?b then c ++ ?x else c] =>
      set (c1 := if b then c ++ x else c)
  end.
  assert (len c1 <= len c + 1) as Hc1.
  { subst c1. unfold len. destruct (_ && _); [rewrite length_app; simpl|]; lia. }
  rewrite Z.geb_leb. destruct (Z.leb_spec limit (len c1)); [lia|].
  specialize (IH c1). lia.
Qed.

(** Once the limit is reached, only the first link of a page is looked at. *)
Lemma collect_links_full (link : option str) (links : list (option str))
    (limit : Z) (c : list str) :
  limit <= len c ->
  collect_links (link :: links) limit c = collect_links [link] limit c.
Proof.
  intros Hc. simpl. match goal with
  | |- context [if ?b then c ++ ?x else c] =>
      set (c1 := if b then c ++ x else c)
  end.
  assert (limit <= len c1) as Hc1.
  { subst c1. unfold len in *. destruct (_ && _); [rewrite length_app|]; lia. }
  rewrite Z.geb_leb. by destruct (Z.leb_spec limit (len c1)); [|lia].
Qed.

Section Search.

Context {W : Type} `{Outside W}.

Implicit Types (s : @state W) (query : str) (c : list str).

(** One turn of the pagination loop, by what the outside answers. *)
Lemma search_loop_refused query limit n rest c s e w0 :
  stdout_write (world s) (SearchPage (n + 1) (page_url query n)) = (Some e, w0) ->
  search_loop query limit (n :: rest) c s
  = (Exc e, {| world := w0; trace := trace s |}).
Proof.
  intros Hout. cbn [search_loop]. fold (page_url query n).
  unfold bind at 1, print. by rewrite Hout.
Qed.

Lemma search_loop_page_at query limit n rest c s w0 p w1 :
  stdout_write (world s) (SearchPage (n + 1) (page_url query n)) = (None, w0) ->
  StealthyFetcher_get w0 (page_url query n) 20 = (Return (Some p), w1) ->
  search_loop query limit (n :: rest) c s
  = search_loop query limit rest (collect_links (anchors p) limit c)
      {| world := w1;
         trace := trace s ++ [Print (SearchPage (n + 1) (page_url query n));
                              Get Stealthy (page_url query n) 20
                                (Return (Some p))] |}.
Proof.
  intros Hout Hget. cbn [search_loop]. fold (page_url query n).
  unfold bind at 1, print. rewrite Hout. unfold bind at 1.
  unfold try_except, bind at 1, get. cbn [world trace].
  rewrite Hget. cbn [ret]. by rewrite <- app_assoc.
Qed.

Lemma search_loop_none_at query limit n rest c s w0 w1 :
  stdout_write (world s) (SearchPage (n + 1) (page_url query n)) = (None, w0) ->
  StealthyFetcher_get w0 (page_url query n) 20 = (Return None, w1) ->
  search_loop query limit (n :: rest) c s
  = (Ok c,
     {| world := w1;
        trace := trace s ++ [Print (SearchPage (n + 1) (page_url query n));
                             Get Stealthy (page_url query n) 20
                               (Return None)] |}).
Proof.
  intros Hout Hget. cbn [search_loop]. fold (page_url query n).
  unfold bind at 1, print. rewrite Hout.
  unfold bind, try_except, get, ret. cbn [world trace].
  rewrite Hget. by rewrite <- app_assoc.
Qed.

Lemma search_loop_raise_at query limit n rest c s w0 e w1 :
  stdout_write (world s) (SearchPage (n + 1) (page_url query n)) = (None, w0) ->
  StealthyFetcher_get w0 (page_url query n) 20 = (Raise e, w1) ->
  search_loop query limit (n :: rest) c s
  = let after :=
      trace s ++ [Print (SearchPage (n + 1) (page_url query n));
                  Get Stealthy (page_url query n) 20 (Raise e)] in
    match stdout_write w1 (SearchError e) with
    | (None, w2) =>
        (Ok c, {| world := w2; trace := after ++ [Print (SearchError e)] |})
    | (Some e', w2) => (Exc e', {| world := w2; trace := after |})
    end.
Proof.
  intros Hout Hget. cbn [search_loop]. fold (page_url query n).
  unfold bind at 1, print at 1. rewrite Hout.
  unfold bind, try_except, get, ret, print. cbn [world trace].
  rewrite Hget. cbn [world trace]. rewrite <- !app_assoc. cbn [app].
  by destruct (stdout_write w1 (SearchError e)) as [[e'|] w2].
Qed.

Lemma forallb_removelast_cons {A} (p : A -> bool) (a : A) (l : list A) :
  p a = true -> forallb p (removelast l) = true ->
  forallb p (removelast (a :: l)) = true.
Proof. intros Ha Hl. destruct l; [done|]. cbn [removelast forallb] in *. by rewrite Ha. Qed.

(** The requests of the pagination loop, whatever the outside answers,
    failing prints included: the pages are asked for in order, a request
    that does not give a page is the last one, and when the loop comes to
    its end with a page for every request, every page was asked for. *)
Lemma search_loop_fetches query limit (nums : list Z) c s :
  exists r s' evs,
    search_loop query limit nums c s = (r, s')
    /\ trace s' = trace s ++ evs
    /\ fst <$> search_fetches evs `prefix_of` page_url query <$> nums
    /\ forallb is_page (removelast (snd <$> search_fetches evs)) = true
    /\ (forall c', r = Ok c' ->
        forallb is_page (snd <$> search_fetches evs) = true ->
        fst <$> search_fetches evs = page_url query <$> nums)
    /\ (forall c', r = Ok c' ->
        forall B, len c + 1 <= B -> limit <= B -> len c' + 1 <= B + len nums)
    /\ (quiet W -> exists c', r = Ok c').
Proof.
  revert c s. induction nums as [|n nums IH]; intros c s.
  - exists (Ok c), s, []. rewrite app_nil_r. repeat split; try done.
    + intros c' [= <-] B ??. unfold len in *. simpl. lia.
    + by exists c.
  - destruct (stdout_write (world s) (SearchPage (n + 1) (page_url query n)))
      as [[e0|] w0] eqn:Hout.
    { eexists _, _, []. rewrite (search_loop_refused _ _ _ _ _ _ _ _ Hout).
      rewrite app_nil_r. repeat split; try done; [apply prefix_nil|].
      intros Hq. by rewrite Hq in Hout. }
    destruct (StealthyFetcher_get w0 (page_url query n) 20)
      as [[e|[p|]] w1] eqn:Hget.
    + rewrite (search_loop_raise_at _ _ _ _ _ _ _ _ _ Hout Hget). cbv zeta.
      destruct (stdout_write w1 (SearchError e)) as [[e'|] w2] eqn:Herr;
        eexists _, _, _; (split; [done|]); cbn [trace];
        rewrite <- ?app_assoc; (split; [done|]); cbn;
        (split; [apply prefix_cons, prefix_nil|]);
        (split; [done|]); (split; [done|]); split.
      * done.
      * intros Hq. by rewrite Hq in Herr.
      * intros c' [= <-] B ??. unfold len in *. simpl. lia.
      * intros _. by eexists.
    + rewrite (search_loop_page_at _ _ _ _ _ _ _ _ _ Hout Hget).
      destruct (IH (collect_links (anchors p) limit c)
                  {| world := w1;
                     trace := trace s ++
                       [Print (SearchPage (n + 1) (page_url query n));
                        Get Stealthy (page_url query n) 20
                          (Return (Some p))] |})
        as (r & s' & evs & Hrun & Htr & Hpre & Hlast & Hall & Hb & Hok).
      eexists r, s', (_ ++ evs). split; [done|]. cbn [trace] in Htr.
      rewrite Htr, <- app_assoc. split; [done|].
      rewrite search_fetches_app. cbn.
      split; [by apply prefix_cons|].
      split; [by apply forallb_removelast_cons|].
      split; [intros c' Hr Hp; by rewrite (Hall c' Hr Hp)|].
      split; [|done].
      intros c' Hr B HB Hl.
      pose proof (collect_links_bound (anchors p) limit c).
      specialize (Hb c' Hr (B + 1)). unfold len in *. simpl. lia.
    + eexists _, _, _. rewrite (search_loop_none_at _ _ _ _ _ _ _ _ Hout Hget).
      split; [done|]. cbn [trace]. split; [done|]. cbn.
      split; [apply prefix_cons, prefix_nil|].
      split; [done|]. split; [done|]. split.
      * intros c' [= <-] B ??. unfold len in *. simpl. lia.
      * intros _. by eexists.
Qed.

(** From here on standard output takes every line. *)
Hypothesis Hquiet : quiet W.

Lemma search_loop_page query limit n rest c s p w1 :
  StealthyFetcher_get (world s) (page_url query n) 20 = (Return (Some p), w1) ->
  search_loop query limit (n :: rest) c s
  = search_loop query limit rest (collect_links (anchors p) limit c)
      {| world := w1;
         trace := trace s ++ [Print (SearchPage (n + 1) (page_url query n));
                              Get Stealthy (page_url query n) 20
                                (Return (Some p))] |}.
Proof. apply search_loop_page_at, Hquiet. Qed.

Lemma search_loop_none query limit n rest c s w1 :
  StealthyFetcher_get (world s) (page_url query n) 20 = (Return None, w1) ->
  search_loop query limit (n :: rest) c s
  = (Ok c,
     {| world := w1;
        trace := trace s ++ [Print (SearchPage (n + 1) (page_url query n));
                             Get Stealthy (page_url query n) 20
                               (Return None)] |}).
Proof. apply search_loop_none_at, Hquiet. Qed.

Lemma search_loop_raise query limit n rest c s e w1 :
  StealthyFetcher_get (world s) (page_url query n) 20 = (Raise e, w1) ->
  search_loop query limit (n :: rest) c s
  = (Ok c,
     {| world := w1;
        trace := trace s ++ [Print (SearchPage (n + 1) (page_url query n));
                             Get Stealthy (page_url query n) 20 (Raise e);
                             Print (SearchError e)] |}).
Proof.
  intros Hget.
  rewrite (search_loop_raise_at _ _ _ _ _ _ _ _ _ (Hquiet _ _) Hget).
  cbv zeta. rewrite Hquiet. by rewrite <- !app_assoc.
Qed.

(** What the pagination loop does, whatever the answers: it never raises,
    it asks for the pages in order up to the first one that fails, and the
    collection only grows, by at most one link for each page asked after the
    limit is reached. *)
Lemma search_loop_run query limit (nums : list Z) c s :
  exists c' s' evs,
    search_loop query limit nums c s = (Ok c', s')
    /\ trace s' = trace s ++ evs
    /\ fst <$> search_fetches evs `prefix_of` page_url query <$> nums
    /\ (forallb is_page (snd <$> search_fetches evs) = true ->
        fst <$> search_fetches evs = page_url query <$> nums)
    /\ Forall (fun ev => search_event ev = true) evs
    /\ primary_fetches evs = []
    /\ c `prefix_of` c'
    /\ (forall B, len c + 1 <= B -> limit <= B ->
                  len c' + 1 <= B + len nums).
Proof.
  revert c s. induction nums as [|n nums IH]; intros c s.
  - exists c, s, []. rewrite app_nil_r. repeat split; try done.
    unfold len. simpl. lia.
  - destruct (StealthyFetcher_get (world s) (page_url query n) 20)
      as [[e|[p|]] w1] eqn:Hget.
    + eexists _, _, _. rewrite (search_loop_raise _ _ _ _ _ _ _ _ Hget).
      split; [done|]. cbn [trace]. split; [done|]. cbn.
      split; [apply prefix_cons, prefix_nil|]. split; [done|].
      split; [by repeat constructor|]. split; [done|]. split; [done|].
      intros B ??. unfold len in *. simpl. lia.
    + rewrite (search_loop_page _ _ _ _ _ _ _ _ Hget).
      destruct (IH (collect_links (anchors p) limit c)
                  {| world := w1;
                     trace := trace s ++
                       [Print (SearchPage (n + 1) (page_url query n));
                        Get Stealthy (page_url query n) 20
                          (Return (Some p))] |})
        as (c' & s' & evs & Hrun & Htr & Hpre & Hall & Hevs & Hprim & Hc & Hb).
      eexists c', s', (_ ++ evs). split; [done|]. cbn [trace] in Htr.
      rewrite Htr, <- app_assoc. split; [done|].
      rewrite search_fetches_app, primary_fetches_app. cbn.
      split; [by apply prefix_cons|]. split; [by intros ->%Hall|].
      split; [by repeat (constructor; [done|])|]. split; [done|].
      split; [etrans; [apply collect_links_prefix|done]|].
      intros B HB Hl. pose proof (collect_links_bound (anchors p) limit c).
      specialize (Hb (B + 1)). unfold len in *. simpl. lia.
    + eexists _, _, _. rewrite (search_loop_none _ _ _ _ _ _ _ Hget).
      split; [done|]. cbn [trace]. split; [done|]. cbn.
      split; [apply prefix_cons, prefix_nil|]. split; [done|].
      split; [by repeat constructor|]. split; [done|]. split; [done|].
      intros B ??. unfold len in *. simpl. lia.
Qed.



Lemma scrape_google_search_unfold query limit s c s1 :
  collect_search query limit s = (Ok c, s1) ->
  scrape_google_search query limit s
  = scrape_websites (slice_to c limit)
      {| world := world s1; trace := trace s1 ++ [Print (Collected (len c))] |}.
Proof.
  intros Hc. unfold scrape_google_search, bind, print. rewrite Hc.
  by rewrite Hquiet.
Qed.

End Search.

(** ** The website scraper *)

Section Website.

Context {W : Type} `{Outside W}.

Implicit Types (s : @state W) (url : str) (results : list lead).

(** C1, as amended. When standard output takes every line: for every list
    of URLs and every behaviour of the fetcher, the page of every URL that
    is not blank is fetched exactly once, in input order; the records
    returned are, one for one and in that order, those of the fetches that
    gave a page or raised, a record of a fetch that raised having empty
    emails and count zero; and a fetch that returned [None] is followed by
    the line [[skip] No response], printed for no other reason, and yields
    no record. *)
Theorem scrape_websites_records (urls : list str) s :
  quiet W ->
  exists recs s' evs,
    scrape_websites urls s = (Ok recs, s')
    /\ trace s' = trace s ++ evs
    /\ fst <$> primary_fetches evs = strip <$> List.filter nonblank urls
    /\ Forall2 record_of recs
         (List.filter (fun f => answered f.2) (primary_fetches evs))
    /\ List.filter fetch_or_skip evs = with_skips (primary_fetches evs).
Proof.
  intros Hq. destruct (scrape_websites_loop_run Hq urls [] s)
    as (new & s' & evs & Hrun & Htr & Hf & Hr & _ & _ & Hs).
  by exists new, s', evs.
Qed.


(** The turn of the loop for one URL, with its fallback. *)
Lemma scrape_websites_body_fallback url results s (r : response) (w1 : W) :
  let u := strip url in
  let contact_url := rstrip_slash u ++ lit "/contact" in
  quiet W ->
  nonblank url = true ->
  Fetcher_get (world s) u 15 = (r, w1) ->
  exists new s' evs,
    scrape_websites_body url results s = (Ok (results ++ new), s')
    /\ trace s' = trace s ++ evs
    /\ primary_fetches evs = [(u, r)]
    /\ (fallback_due u r = true ->
        exists r2 now,
          contact_fetches evs = [(contact_url, r2)]
          /\ new = [make_lead u (contact_emails r2) now])
    /\ (fallback_due u r = false -> contact_fetches evs = []).
Proof.
  intros u contact_url Hq Hu Hget. destruct r as [e|[p|]].
  - destruct (datetime_now w1) as [now w2] eqn:Hnow.
    eexists [_], _, _.
    rewrite (scrape_websites_body_raise Hq _ _ _ _ _ _ _ Hu Hget Hnow).
    split; [done|]. cbn [trace]. by repeat split.
  - set (found := extract_emails (html_content p)).
    set (s1 := {| world := w1;
                  trace := trace s ++ [Print (Fetching u);
                                       Get Plain u 15 (Return (Some p))] |}).
    destruct (truthy found || endswith (lit "/contact") (rstrip_slash u))
      eqn:Hc.
    + pose proof (try_contact_skip u found s1 Hc) as Hcontact.
      destruct (datetime_now w1) as [now w3] eqn:Hnow.
      eexists [_], _, _.
      rewrite (scrape_websites_body_page Hq _ _ _ _ _ _ _ _ _
                 Hu Hget Hcontact Hnow).
      split; [done|]. cbn [trace s1]. rewrite <- app_assoc.
      split; [done|]. split; [done|]. split; [|done].
      cbn [fallback_due]. fold found.
      by destruct (truthy found), (endswith _ _).
    + apply orb_false_iff in Hc as [Hfound Hend].
      destruct (Fetcher_get w1 contact_url 10) as [r2 w2] eqn:Hget2.
      pose proof (try_contact_attempt Hq u s1 r2 w2 Hend Hget2) as Hcontact.
      assert (found = []) as Hnil by (by destruct found).
      rewrite <- Hnil in Hcontact.
      destruct (datetime_now w2) as [now w3] eqn:Hnow.
      eexists [_], _, _.
      rewrite (scrape_websites_body_page Hq _ _ _ _ _ _ _ _ _
                 Hu Hget Hcontact Hnow).
      split; [done|]. cbn [trace s1]. rewrite <- !app_assoc.
      split; [done|]. split; [reflexivity|]. split.
      * intros _. exists r2, now. split; [reflexivity|]. by rewrite Hnil.
      * cbn [fallback_due]. fold found. by rewrite Hfound, Hend.
  - eexists [], _, _. rewrite (scrape_websites_body_none Hq _ _ _ _ Hu Hget).
    rewrite app_nil_r. split; [done|]. cbn [trace]. by repeat split.
Qed.

Lemma contact_emails_address (r : response) :
  Forall address (contact_emails r).
Proof.
  destruct r as [e|[cp|]]; try constructor. apply extract_emails_address.
Qed.

(** C7, as amended. When standard output takes every line, in the turn of
    [scrape_websites] for a URL that is not blank, whose page the fetcher
    answered with [r]: when the fallback is due (the fetch gave a page,
    whatever its content, the extractor found no address in it, and the URL
    does not end in [/contact] once trailing slashes are dropped) there is
    exactly one further fetch, of the URL without its trailing slashes
    followed by [/contact], with the timeout 10 instead of 15, and the
    record of the URL lists the addresses extracted from the contact page,
    or none, with count zero, when that fetch raised or gave nothing; when
    the fallback is not due there is no such fetch. In both cases the turn
    returns normally. *)
Theorem contact_fallback url results s (r : response) (w1 : W) :
  let u := strip url in
  let contact_url := rstrip_slash u ++ lit "/contact" in
  quiet W ->
  nonblank url = true ->
  Fetcher_get (world s) u 15 = (r, w1) ->
  exists new s' evs,
    scrape_websites_body url results s = (Ok (results ++ new), s')
    /\ trace s' = trace s ++ evs
    /\ primary_fetches evs = [(u, r)]
    /\ (fallback_due u r = true ->
        exists r2 rec,
          contact_fetches evs = [(contact_url, r2)]
          /\ new = [rec]
          /\ source rec = u
          /\ (forall contact_page,
                r2 = Return (Some contact_page) ->
                listed (emails rec)
                = extract_emails (html_content contact_page)
                /\ email_count rec
                   = len (extract_emails (html_content contact_page)))
          /\ (is_page r2 = false -> emails rec = [] /\ email_count rec = 0))
    /\ (fallback_due u r = false -> contact_fetches evs = []).
Proof.
  intros u contact_url Hq Hu Hget.
  destruct (scrape_websites_body_fallback url results s r w1 Hq Hu Hget)
    as (new & s' & evs & Hrun & Htr & Hprim & Hdue & Hnot).
  exists new, s', evs. repeat split; try done.
  intros (r2 & now & Hfetch & ->)%Hdue.
  exists r2, (make_lead u (contact_emails r2) now).
  split; [done|]. split; [done|]. split; [done|]. split.
  - intros cp ->. split; [|done].
    apply listed_make_lead, extract_emails_address.
  - by destruct r2 as [e|[cp|]].
Qed.


End Website.

(** A dead URL: the fetch returns [None], and no record comes back. C1 as
    stated asks for one. And on a console that encodes ASCII only, a page
    with an address that cannot be printed: the error of [print] reaches
    the [except] clause with the record already in the list, and the URL
    gets two records. C1 as stated asks for exactly one. *)
Lemma scrape_websites_records_counterexample :
  let url := lit "http://dead-url.invalid" in
  let run := scrape_websites [lit "http://shop.test"]
               {| world := {| behind := dotless |}; trace := [] |} in
  nonblank url = true
  /\ scrape_websites [url] (start silent)
     = (Ok [],
        {| world := silent;
           trace := [Print (Fetching url);
                     Get Plain url 15 (Return None);
                     Print SkipNoResponse] |})
  /\ run.1
     = Ok [ {| source := lit "http://shop.test";
               emails := [305%N] ++ lit "nfo@shop.test";
               email_count := 1;
               scraped_at := lit "2024-01-01T00:00:00" |};
            {| source := lit "http://shop.test";
               emails := [];
               email_count := 0;
               scraped_at := lit "2024-01-01T00:00:00" |} ].
Proof. repeat split; vm_compute; reflexivity. Qed.

(** The shop and a dead URL, one after the other. *)
Lemma scrape_websites_records_witness :
  exists recs s' evs,
    scrape_websites [lit "http://shop.test"; lit "  "] (start shop)
    = (Ok recs, s')
    /\ trace s' = trace (start shop) ++ evs
    /\ fst <$> primary_fetches evs
       = strip <$> List.filter nonblank [lit "http://shop.test"; lit "  "]
    /\ Forall2 record_of recs
         (List.filter (fun f => answered f.2) (primary_fetches evs))
    /\ List.filter fetch_or_skip evs = with_skips (primary_fetches evs).
Proof.
  apply (scrape_websites_records [lit "http://shop.test"; lit "  "]
           (start shop)).
  intros w l. reflexivity.
Defined.



(** An empty home page: the fetch gave a page with no content, and the
    contact page is fetched all the same. C7 as stated has the fallback
    only for a page whose content is not empty. *)
Lemma contact_fallback_counterexample :
  let run := scrape_websites [lit "http://shop.test"] (start empty_shop) in
  html_content (a_page "" []) = []
  /\ primary_fetches (trace run.2)
     = [(lit "http://shop.test", Return (Some (a_page "" [])))]
  /\ contact_fetches (trace run.2)
     = [(lit "http://shop.test/contact",
         Return (Some (a_page "Write to Owner@Shop.test" [])))].
Proof. repeat split; vm_compute; reflexivity. Qed.

(** The shop: nothing on the home page, one address on the contact page. *)
Lemma contact_fallback_witness :
  exists new s' evs,
    scrape_websites_body (lit " http://shop.test/ ") [] (start shop)
    = (Ok ([] ++ new), s')
    /\ trace s' = trace (start shop) ++ evs
    /\ primary_fetches evs
       = [(lit "http://shop.test/",
           Return (Some (a_page "Welcome to the shop" [])))]
    /\ (true = true ->
        exists r2 rec,
          contact_fetches evs = [(lit "http://shop.test/contact", r2)]
          /\ new = [rec]
          /\ source rec = lit "http://shop.test/"
          /\ (forall contact_page,
                r2 = Return (Some contact_page) ->
                listed (emails rec)
                = extract_emails (html_content contact_page)
                /\ email_count rec
                   = len (extract_emails (html_content contact_page)))
          /\ (is_page r2 = false -> emails rec = [] /\ email_count rec = 0))
    /\ (true = false -> contact_fetches evs = []).
Proof.
  apply (contact_fallback (lit " http://shop.test/ ") [] (start shop)
           (Return (Some (a_page "Welcome to the shop" []))) shop).
  - intros w l. reflexivity.
  - reflexivity.
  - reflexivity.
Defined.

(** ** The search collector *)

Section Collector.

Context {W : Type} `{Outside W}.

Implicit Types (s : @state W) (query : str).

(** C2, as amended. Once the collection holds [limit] links, the collection
    of links on the current page stops: a page adds links up to the limit
    or one link at most, and of a page met with the limit reached only the
    first link is looked at. The pagination does not stop there: the
    [limit // 10 + 1] pages are asked for in order whatever the collection
    holds; a request that does not give a page is the last one; and when
    the search comes to its end with a page for every request, every page
    was asked for. This holds whatever the outside answers. *)
Theorem collect_search_pagination query limit s :
  exists r s' evs,
    collect_search query limit s = (r, s')
    /\ trace s' = trace s ++ evs
    /\ length (planned query limit) = Z.to_nat (limit / 10 + 1)
    /\ fst <$> search_fetches evs `prefix_of` planned query limit
    /\ forallb is_page (removelast (snd <$> search_fetches evs)) = true
    /\ (forall collected,
          r = Ok collected ->
          forallb is_page (snd <$> search_fetches evs) = true ->
          fst <$> search_fetches evs = planned query limit)
    /\ (forall links c0,
          len (collect_links links limit c0) <= Z.max limit (len c0 + 1))
    /\ (forall link links c0,
          limit <= len c0 ->
          collect_links (link :: links) limit c0
          = collect_links [link] limit c0).
Proof.
  unfold collect_search, planned.
  destruct (search_loop_fetches query limit
              (py_range (pages_needed limit)) [] s)
    as (r & s' & evs & Hrun & Htr & Hpre & Hlast & Hall & _).
  exists r, s', evs. repeat split; try done.
  - unfold py_range, pages_needed. by rewrite length_fmap, length_map, length_seq.
  - intros links c0. apply collect_links_bound.
  - intros link links c0. apply collect_links_full.
Qed.



End Collector.

(** Ten links on the first page and a limit of 10: the collection is full
    after the first page, and the second page is asked for all the same.
    C2 as stated has the pagination stop there. *)
Lemma collect_search_pagination_counterexample :
  let run := collect_search (lit "shoes") 10 (start (engine ten_links)) in
  let page1 := a_page "" ten_links in
  len (collect_links (anchors page1) 10 []) = 10
  /\ search_fetches (trace run.2)
     = [(lit "https://www.google.com/search?q=shoes&start=0",
         Return (Some page1));
        (lit "https://www.google.com/search?q=shoes&start=10",
         Return (Some page1))].
Proof. split; vm_compute; reflexivity. Qed.





(** ** The command line *)

Section Command.

Context {W : Type} `{Outside W}.



End Command.


(** * Further properties *)

(** ** The email extractor *)

Lemma findall_from_infix (re : pattern) (skip : nat) (s m : str) :
  m ∈ findall_from re skip s -> exists pre post, s = pre ++ m ++ post.
Proof.
  revert skip. induction s as [|x s IH]; intros skip; simpl.
  - by intros ?%elem_of_nil.
  - assert (forall k, m ∈ findall_from re k s ->
                      exists pre post, x :: s = pre ++ m ++ post) as IH'.
    { intros k (pre & post & ->)%IH. by exists (x :: pre), post. }
    destruct skip as [|k]; [|by apply IH'].
    destruct (match_here re (x :: s)) as [n|] eqn:Hm; [|by apply IH'].
    intros [->|Hin]%elem_of_cons; [|by eapply IH'].
    exists [], (drop n (x :: s)). cbn [app]. by rewrite take_drop.
Qed.

Lemma normalize_match (m : str) :
  matches EMAIL_RE m -> normalize m = lower m.
Proof.
  intros [_ Hm]%matches_chars. unfold normalize. apply strip_id.
  eapply Forall_impl; [by apply lower_address|]. apply address_char_not_space.
Qed.

(** Every address returned is the lower-cased form of a piece of the text
    that matches the pattern. *)
Theorem extract_emails_substring (text e : str) :
  e ∈ extract_emails text ->
  exists pre m post,
    text = pre ++ m ++ post /\ matches EMAIL_RE m /\ e = lower m.
Proof.
  unfold extract_emails. rewrite clean_emails_spec, first_occurrences_elem.
  unfold survivors. rewrite list_elem_of_filter, list_elem_of_fmap.
  intros [_ (m & -> & Hm)].
  destruct (findall_from_infix _ _ _ _ Hm) as (pre & post & ->).
  apply (findall_from_sound _ 0%nat) in Hm as [Hm _].
  exists pre, m, post. by rewrite normalize_match.
Qed.

Lemma extract_emails_substring_witness :
  exists pre m post,
    lit "Write to Info@Acme.org today" = pre ++ m ++ post
    /\ matches EMAIL_RE m /\ lit "info@acme.org" = lower m.
Proof.
  apply (extract_emails_substring (lit "Write to Info@Acme.org today")).
  assert (extract_emails (lit "Write to Info@Acme.org today")
          = [lit "info@acme.org"]) as -> by (vm_compute; reflexivity).
  apply list_elem_of_here.
Defined.

(** A text without [@] holds no address. *)
Theorem extract_emails_no_at (text : str) :
  64%N ∉ text -> extract_emails text = [].
Proof.
  intros Hat. destruct (extract_emails text) as [|e l] eqn:He; [done|].
  destruct (extract_emails_elem text e) as (m & _ & Hm & Hsub).
  { rewrite He. apply list_elem_of_here. }
  destruct (matches_EMAIL_RE m Hm) as (l1 & d & t & -> & _).
  destruct Hat. apply Hsub. set_solver.
Qed.

Lemma extract_emails_no_at_witness :
  extract_emails (lit "call us on 555 0100") = [].
Proof.
  apply extract_emails_no_at.
  intros Hin%list_elem_of_In. vm_compute in Hin. intuition discriminate.
Defined.

(** ** The links of a search page *)

Lemma collect_links_cons (link : option str) (links : list (option str))
    (limit : Z) (c : list str) :
  collect_links (link :: links) limit c
  = let c1 := if kept (href_of link) then c ++ [href_of link] else c in
    if len c1 >=? limit then c1 else collect_links links limit c1.
Proof. done. Qed.

(** The links a page adds to the collection are its kept links, the
    absolute ones that are not on the search engine's domain, in the order
    of the page and from the first one on; all of them unless the limit
    was reached. *)
Theorem collect_links_kept (links : list (option str)) (limit : Z)
    (c : list str) :
  exists k,
    collect_links links limit c
    = c ++ take k (List.filter kept (href_of <$> links))
    /\ (limit <= len (collect_links links limit c)
        \/ collect_links links limit c
           = c ++ List.filter kept (href_of <$> links)).
Proof.
  revert c. induction links as [|link links IH]; intros c.
  - exists 0%nat. simpl. rewrite app_nil_r. by split; [|right].
  - rewrite collect_links_cons. cbv zeta. rewrite fmap_cons.
    cbn [List.filter]. destruct (kept (href_of link)).
    + rewrite Z.geb_leb.
      destruct (Z.leb_spec limit (len (c ++ [href_of link]))).
      * exists 1%nat. cbn [take]. rewrite take_0. by split; [|left].
      * destruct (IH (c ++ [href_of link])) as (k & Hk & Hor).
        exists (S k). rewrite Hk, <- !app_assoc in *. cbn [take app] in *.
        by split.
    + rewrite Z.geb_leb. destruct (Z.leb_spec limit (len c)).
      * exists 0%nat. rewrite take_0, app_nil_r. by split; [|left].
      * apply IH.
Qed.

(** ** Lines *)

Lemma splitlines_from_line (cur l rest : str) :
  no_linebreak l ->
  splitlines_from cur (l ++ 10%N :: rest)
  = (cur ++ l) :: splitlines_from [] rest.
Proof.
  intros Hl. revert cur. induction Hl as [|c l Hc _ IH]; intros cur.
  - simpl. rewrite app_nil_r. by destruct rest.
  - cbn [app splitlines_from]. rewrite Hc, IH. by rewrite <- app_assoc.
Qed.

Lemma splitlines_from_end (cur l : str) :
  no_linebreak l -> cur ++ l ≠ [] -> splitlines_from cur l = [cur ++ l].
Proof.
  intros Hl. revert cur. induction Hl as [|c l Hc _ IH]; intros cur Hne.
  - simpl. rewrite app_nil_r in *. by destruct cur.
  - cbn [splitlines_from]. rewrite Hc, IH; rewrite <- app_assoc; [done|].
    by destruct cur.
Qed.

(** A file written with one URL on each line gives the URLs back: lines
    free of line breaks, joined by the line feed, are what [splitlines]
    returns, provided the last one is not empty. *)
Theorem splitlines_join (lines : list str) :
  Forall no_linebreak lines ->
  last lines ≠ Some [] ->
  splitlines (join [10%N] lines) = lines.
Proof.
  unfold splitlines. induction 1 as [|p rest Hp Hrest IH]; [done|].
  intros Hlast. destruct rest as [|q rest].
  - cbn [join]. rewrite (splitlines_from_end [] p Hp); [done|].
    cbn [app]. intros ->. by apply Hlast.
  - change (join [10%N] (p :: q :: rest))
      with (p ++ 10%N :: join [10%N] (q :: rest)).
    rewrite splitlines_from_line by done. cbn [app]. f_equal. by apply IH.
Qed.

Lemma splitlines_join_witness :
  splitlines (join [10%N] [lit "http://a.test"; []; lit "http://b.test"])
  = [lit "http://a.test"; []; lit "http://b.test"].
Proof.
  apply splitlines_join.
  - repeat constructor.
  - discriminate.
Defined.

Lemma splitlines_from_no_break (n : nat) (cur s : str) :
  (length s <= n)%nat -> no_linebreak cur ->
  Forall no_linebreak (splitlines_from cur s).
Proof.
  revert cur s. induction n as [|n IH]; intros cur s Hn Hcur.
  - destruct s; [|simpl in Hn; lia]. simpl.
    destruct (truthy cur); by repeat constructor.
  - destruct s as [|c s]; simpl in *.
    { destruct (truthy cur); by repeat constructor. }
    destruct (is_linebreak c) eqn:Hc.
    + constructor; [done|]. destruct s as [|c' s]; [constructor|].
      simpl in Hn. destruct (_ && _); apply IH; try constructor; simpl; lia.
    + apply IH; [lia|]. apply Forall_app. by repeat constructor.
Qed.

(** No line that [splitlines] returns holds a line break. *)
Theorem splitlines_no_break (s : str) : Forall no_linebreak (splitlines s).
Proof. by apply (splitlines_from_no_break (length s)); [|constructor]. Qed.

(** ** More on the website scraper *)

Lemma startswith_app (p s : str) : startswith p (p ++ s) = true.
Proof.
  induction p as [|a p IH]; [done|]. simpl. by rewrite N.eqb_refl, IH.
Qed.

Lemma endswith_app (p s : str) : endswith p (s ++ p) = true.
Proof. unfold endswith. rewrite rev_app_distr. apply startswith_app. Qed.

Lemma rstrip_by_app (f : N -> bool) (a b : str) :
  rstrip_by f b ≠ [] -> rstrip_by f (a ++ b) = a ++ rstrip_by f b.
Proof.
  intros Hb. induction a as [|c a IH]; [done|].
  cbn [app rstrip_by]. rewrite IH.
  destruct (a ++ rstrip_by f b) eqn:Hab; [|done].
  by apply app_eq_nil in Hab as [_ ?].
Qed.

Lemma rstrip_slash_contact (u : str) :
  rstrip_slash (u ++ lit "/contact") = u ++ lit "/contact".
Proof. unfold rstrip_slash. by rewrite rstrip_by_app. Qed.

Section More.

Context {W : Type} `{Outside W}.

Implicit Types (s : @state W) (url : str) (results : list lead).

(** The fallback does not chain: for a URL that is itself a contact URL,
    with or without trailing slashes, [try_contact] fetches nothing and
    prints nothing, whatever was found. *)
Theorem try_contact_of_contact_url (u : str) (found : list str) s :
  try_contact (u ++ lit "/contact") found s = (Ok found, s).
Proof.
  apply try_contact_skip. rewrite rstrip_slash_contact, endswith_app.
  apply orb_true_r.
Qed.

(** A list of blank entries: nothing is fetched, nothing is printed, and
    no record comes back, in any world. *)
Theorem scrape_websites_blank (urls : list str) s :
  Forall (fun url => nonblank url = false) urls ->
  scrape_websites urls s = (Ok [], s).
Proof.
  intros Hall. unfold scrape_websites. generalize (@nil lead).
  induction Hall as [|url urls Hu _ IH]; intros results; [done|].
  cbn [scrape_websites_loop]. unfold bind.
  by rewrite scrape_websites_body_blank.
Qed.



(** From here on standard output takes every line. *)
Hypothesis Hquiet : quiet W.

(** The total of the summary line is the number of addresses the records
    list: after a scrape of any URLs, when the file could be written,
    [save_csv] writes the records and prints their number and the number
    of all addresses listed in them. *)
Theorem save_csv_total (urls : list str) (output_path : str) s recs s1 w2 :
  scrape_websites urls s = (Ok recs, s1) ->
  recs ≠ [] ->
  write_csv (world s1) output_path fieldnames recs = (None, w2) ->
  save_csv recs output_path s1
  = (Ok (),
     {| world := w2;
        trace := trace s1 ++
          [WriteCsv output_path fieldnames recs;
           Print (Saved (len recs)
                    (len (concat (map (fun r => listed (emails r)) recs)))
                    output_path)] |}).
Proof.
  intros Hrun Hne Hwrite.
  destruct (scrape_websites_loop_run Hquiet urls [] s)
    as (new & s' & evs & Hrun' & _ & _ & _ & Hc & _).
  unfold scrape_websites in Hrun. rewrite Hrun' in Hrun.
  injection Hrun as <- <-.
  assert (fold_right Z.add 0 (map email_count new)
          = len (concat (map (fun r => listed (emails r)) new))) as Htotal.
  { clear -Hc. induction Hc as [|r l Hr _ IH]; [done|].
    cbn [map fold_right concat]. unfold len in *.
    rewrite length_app, IH, (counted_email_count r Hr). unfold len. lia. }
  unfold save_csv, dict_writer, bind. destruct new; [done|].
  cbn [truthy negb]. rewrite Hwrite. cbn [world trace].
  rewrite (print_quiet Hquiet). cbn [world trace].
  by rewrite Htotal, <- app_assoc.
Qed.

(** A file that cannot be read: the error of [read_text] leaves
    [scrape_from_file] and [main]; nothing is fetched and no file is
    written. *)
Theorem main_file_unreadable (a : args) (filepath : str) s e w1 :
  arg_source a = file ->
  arg_file a = Some filepath ->
  truthy filepath = true ->
  read_text (world s) filepath = (inr e, w1) ->
  main a s
  = (Exc e,
     {| world := w1;
        trace := trace s ++ [Print Banner;
                             Print (SourceLine file (arg_output a));
                             ReadText filepath] |}).
Proof.
  intros Hsrc Hfile Hpath Hread.
  unfold main, scrape_from_file, path_read_text, bind, print.
  rewrite Hsrc, Hfile. cbn [missing given]. rewrite Hpath. cbn [negb].
  repeat first [ rewrite Hquiet | progress cbn [world trace] ].
  rewrite Hread. by rewrite <- !app_assoc.
Qed.

(** The lines of the file are the URLs: after the file is read and the
    number of its lines reported, the pages fetched are those of the lines
    that are not blank, stripped, in the order of the file. *)
Theorem scrape_from_file_lines (filepath : str) s text w1 :
  read_text (world s) filepath = (inl text, w1) ->
  exists recs s' evs,
    scrape_from_file filepath s = (Ok recs, s')
    /\ trace s'
       = trace s ++ [ReadText filepath;
                     Print (Loaded (len (splitlines text)) filepath)] ++ evs
    /\ fst <$> primary_fetches evs
       = strip <$> List.filter nonblank (splitlines text)
    /\ (length recs <= length (List.filter nonblank (splitlines text)))%nat.
Proof.
  intros Hread.
  unfold scrape_from_file, path_read_text, bind, print.
  rewrite Hread. cbn [world trace]. rewrite Hquiet. cbn [world trace].
  match goal with
  | |- context [scrape_websites ?urls ?s0] =>
      destruct (scrape_websites_loop_run Hquiet urls [] s0)
        as (new & s' & evs & Hrun & Htr & Hf & Hr & _)
  end.
  exists new, s', evs. unfold scrape_websites. rewrite Hrun.
  split; [done|]. cbn [trace] in Htr. rewrite Htr, <- !app_assoc.
  split; [done|]. split; [done|].
  apply Forall2_length in Hr. rewrite Hr.
  etrans; [apply List.filter_length_le|].
  by rewrite <- (length_fmap fst), Hf, length_fmap.
Qed.

(** A negative limit: no search page is asked for, nothing is fetched, and
    the result is empty. *)
Theorem scrape_google_search_negative (query : str) (limit : Z) s :
  limit < 0 ->
  scrape_google_search query limit s
  = (Ok [],
     {| world := world s; trace := trace s ++ [Print (Collected 0)] |}).
Proof.
  intros Hlimit. unfold scrape_google_search, collect_search, bind.
  assert (py_range (pages_needed limit) = []) as ->.
  { unfold py_range, pages_needed.
    assert (limit / 10 < 0) by (apply Z.div_lt_upper_bound; lia).
    by replace (Z.to_nat (limit / 10 + 1)) with 0%nat by lia. }
  cbn [search_loop ret]. rewrite (print_quiet Hquiet). cbn [world trace].
  assert (slice_to (@nil str) limit = []) as ->; [|done].
  unfold slice_to. rewrite !firstn_nil. by destruct (0 <=? limit).
Qed.

Lemma scrape_websites_body_shift url results s :
  scrape_websites_body url results s
  = let '(r, s') := scrape_websites_body url [] s in
    (match r with Ok new => Ok (results ++ new) | Exc e => Exc e end, s').
Proof.
  destruct (nonblank url) eqn:Hu.
  2: { rewrite !scrape_websites_body_blank by done. by rewrite app_nil_r. }
  destruct (Fetcher_get (world s) (strip url) 15) as [[e|[p|]] w1] eqn:Hget.
  - destruct (datetime_now w1) as [now w2] eqn:Hnow.
    by rewrite !(scrape_websites_body_raise Hquiet _ _ _ _ _ _ _ Hu Hget Hnow).
  - destruct (try_contact_run Hquiet (strip url)
                (extract_emails (html_content p))
                {| world := w1;
                   trace := trace s ++ [Print (Fetching (strip url));
                             Get Plain (strip url) 15 (Return (Some p))] |}
                (extract_emails_address _))
      as (found & s2 & evs & Hcontact & _).
    destruct (datetime_now (world s2)) as [now w3] eqn:Hnow.
    by rewrite !(scrape_websites_body_page Hquiet _ _ _ _ _ _ _ _ _
                   Hu Hget Hcontact Hnow).
  - rewrite !(scrape_websites_body_none Hquiet _ _ _ _ Hu Hget).
    by rewrite app_nil_r.
Qed.

Lemma scrape_websites_loop_shift (urls : list str) results s :
  scrape_websites_loop urls results s
  = let '(r, s') := scrape_websites_loop urls [] s in
    (match r with Ok new => Ok (results ++ new) | Exc e => Exc e end, s').
Proof.
  revert results s. induction urls as [|url urls IH]; intros results s.
  - simpl. unfold ret. by rewrite app_nil_r.
  - cbn [scrape_websites_loop]. unfold bind.
    rewrite (scrape_websites_body_shift url results).
    destruct (scrape_websites_body url [] s) as [[new1|e] s1]; [|done].
    rewrite (IH (results ++ new1)), (IH new1).
    destruct (scrape_websites_loop urls [] s1) as [[new|e] s2]; [|done].
    by rewrite app_assoc.
Qed.

Lemma scrape_websites_loop_app (a b : list str) results s :
  scrape_websites_loop (a ++ b) results s
  = bind (scrape_websites_loop a results) (scrape_websites_loop b) s.
Proof.
  revert results s. induction a as [|url a IH]; intros results s;
    [reflexivity|].
  cbn [app scrape_websites_loop]. unfold bind.
  destruct (scrape_websites_body url results s) as [[r1|e] s1]; [|done].
  by rewrite IH.
Qed.

(** The URLs are scraped one after the other, each on its own: the records
    of a list made of two are those of the first followed by those of the
    second, scraped where the first left the world. *)
Theorem scrape_websites_app (us1 us2 : list str) s r1 s1 r2 s2 :
  scrape_websites us1 s = (Ok r1, s1) ->
  scrape_websites us2 s1 = (Ok r2, s2) ->
  scrape_websites (us1 ++ us2) s = (Ok (r1 ++ r2), s2).
Proof.
  unfold scrape_websites. intros H1 H2.
  rewrite scrape_websites_loop_app. unfold bind. rewrite H1.
  by rewrite scrape_websites_loop_shift, H2.
Qed.

(** The two fetchers keep to their tasks: a search first prints and asks
    the stealthy fetcher, with a timeout of 20 seconds, then prints and asks
    the plain fetcher, with a timeout of 15 or 10 seconds; it reads no file
    and writes none. *)
Theorem scrape_google_search_events (query : str) (limit : Z) s :
  exists recs s' evs1 evs2,
    scrape_google_search query limit s = (Ok recs, s')
    /\ trace s' = trace s ++ evs1 ++ evs2
    /\ Forall (fun ev => search_event ev = true) evs1
    /\ Forall (fun ev => website_event ev = true) evs2.
Proof.
  destruct (search_loop_run Hquiet query limit
              (py_range (pages_needed limit)) [] s)
    as (c & s1 & evs & Hrun & Htr & _ & _ & Hevs & _).
  rewrite (scrape_google_search_unfold Hquiet _ _ _ c s1) by done.
  match goal with
  | |- context [scrape_websites ?urls ?s0] =>
      destruct (scrape_websites_loop_run Hquiet urls [] s0)
        as (new & s' & evs2 & Hrun2 & Htr2 & _ & _ & _ & Hevs2 & _)
  end.
  exists new, s', (evs ++ [Print (Collected (len c))]), evs2.
  unfold scrape_websites. rewrite Hrun2. split; [done|].
  cbn [trace] in Htr2. rewrite Htr2, Htr, <- !app_assoc.
  split; [done|]. split; [|done].
  apply Forall_app. split; [done|]. by repeat constructor.
Qed.

End More.

(** The scripted worlds are quiet. *)
Lemma script_quiet : quiet script.
Proof. intros w l. reflexivity. Qed.

Lemma scrape_websites_blank_witness :
  scrape_websites [lit "  "; []; [9%N; 32%N]] (start silent)
  = (Ok [], start silent).
Proof. apply scrape_websites_blank. by repeat constructor. Defined.


Lemma save_csv_total_witness :
  let run := scrape_websites [lit "http://shop.test"] (start shop) in
  exists recs s1,
    run = (Ok recs, s1)
    /\ save_csv recs (lit "leads_output.csv") s1
       = (Ok (),
          {| world := shop;
             trace := trace s1 ++
               [WriteCsv (lit "leads_output.csv") fieldnames recs;
                Print (Saved (len recs)
                         (len (concat (map (fun r => listed (emails r)) recs)))
                         (lit "leads_output.csv"))] |}).
Proof.
  eexists _, _. split; [vm_compute; reflexivity|].
  eapply (save_csv_total script_quiet
            [lit "http://shop.test"] (lit "leads_output.csv") (start shop)).
  - vm_compute. reflexivity.
  - discriminate.
  - reflexivity.
Defined.

Lemma main_file_unreadable_witness :
  main (file_args "urls.txt") (start silent)
  = (Exc (lit "No such file or directory"),
     {| world := silent;
        trace := [Print Banner;
                  Print (SourceLine file (lit "leads_output.csv"));
                  ReadText (lit "urls.txt")] |}).
Proof.
  apply (main_file_unreadable script_quiet (file_args "urls.txt")
           (lit "urls.txt") (start silent)); reflexivity.
Defined.

Lemma scrape_from_file_lines_witness :
  let text := lit "http://a.test" ++ [10%N; 32%N; 10%N]
              ++ lit "http://b.test" ++ [10%N] in
  exists recs s' evs,
    scrape_from_file (lit "urls.txt") (start with_file) = (Ok recs, s')
    /\ trace s'
       = trace (start with_file)
         ++ [ReadText (lit "urls.txt");
             Print (Loaded (len (splitlines text)) (lit "urls.txt"))] ++ evs
    /\ fst <$> primary_fetches evs
       = strip <$> List.filter nonblank (splitlines text)
    /\ (length recs <= length (List.filter nonblank (splitlines text)))%nat.
Proof.
  apply (scrape_from_file_lines script_quiet (lit "urls.txt")
           (start with_file) _ with_file).
  reflexivity.
Defined.

Lemma scrape_google_search_negative_witness :
  scrape_google_search (lit "shoes") (-5) (start (engine ten_links))
  = (Ok [],
     {| world := engine ten_links; trace := [Print (Collected 0)] |}).
Proof.
  apply (scrape_google_search_negative script_quiet (lit "shoes")
           (-5) (start (engine ten_links))).
  lia.
Defined.

Lemma scrape_websites_app_witness :
  exists r1 r2 s2,
    scrape_websites ([lit "http://shop.test"] ++ [lit "http://shop.test/b"])
      (start shop)
    = (Ok (r1 ++ r2), s2).
Proof.
  eexists _, _, _.
  eapply (scrape_websites_app script_quiet [lit "http://shop.test"]
            [lit "http://shop.test/b"] (start shop));
    vm_compute; reflexivity.
Defined.

Lemma scrape_google_search_events_witness :
  exists recs s' evs1 evs2,
    scrape_google_search (lit "shoes") 15 (start (engine fifteen_links))
    = (Ok recs, s')
    /\ trace s' = trace (start (engine fifteen_links)) ++ evs1 ++ evs2
    /\ Forall (fun ev => search_event ev = true) evs1
    /\ Forall (fun ev => website_event ev = true) evs2.
Proof.
  apply (scrape_google_search_events script_quiet (lit "shoes") 15
           (start (engine fifteen_links))).
Defined.

(** On a console that encodes ASCII only, [save_csv] writes the file and
    then raises: the summary line holds U+2713 and U+2192, which the
    console cannot take. *)
Theorem save_csv_ascii_console (rec : lead) (recs : list lead)
    (output_path : str) (s : @state ascii_console) :
  disk (behind (world s)) = None ->
  save_csv (rec :: recs) output_path s
  = (Exc (lit "UnicodeEncodeError"),
     {| world := world s;
        trace := trace s ++ [WriteCsv output_path fieldnames (rec :: recs)] |}).
Proof.
  intros Hdisk. unfold save_csv, dict_writer, bind, print.
  cbn [truthy negb write_csv stdout_write ascii_console_Outside world trace].
  by rewrite Hdisk.
Qed.

Lemma save_csv_ascii_console_witness :
  let rec := make_lead (lit "http://shop.test") [lit "owner@shop.test"]
               (lit "2024-01-01T00:00:00") in
  save_csv [rec] (lit "leads_output.csv")
    {| world := {| behind := shop |}; trace := [] |}
  = (Exc (lit "UnicodeEncodeError"),
     {| world := {| behind := shop |};
        trace := [WriteCsv (lit "leads_output.csv") fieldnames [rec]] |}).
Proof.
  apply (save_csv_ascii_console _ []
           (lit "leads_output.csv")
           {| world := {| behind := shop |}; trace := [] |}).
  reflexivity.
Defined.
